(** * Q-recsys: a shallow embedding of [qrecsys.py]

    The development follows the Python module top-down in the order the
    recommender uses its pieces:

    - Python slicing [xs[:k]] on arbitrary-precision integers,
    - the exceptions the module can surface and a small error monad,
    - [euclidean_distances], [np.argsort] and [Recommender._find_nearest],
    - [np.setdiff1d(..., assume_unique=True)],
    - [Recommender.recommend] with its per-seed loop,
    - the checks of [preprocess],
    - [batch] and the title embeddings [preprocess] stacks,
    - [Recommender.__init__].

    Numbers.  Embedding entries are IEEE binary64 numbers and every
    operation on them is the binary64 operation, so that a computed distance
    is the rounded value scikit-learn returns, not the true distance.  An
    array of dtype [float32] holds doubles that are singles; scikit-learn
    computes its distances in double all the same and rounds them back to
    the dtype of the arrays.

    Library calls.  [euclidean_distances] is scikit-learn's routine: it
    validates both arrays and raises [ValueError] on an array without rows
    or columns, on a non-finite entry and on differing widths, then
    evaluates [x.x - 2 x.y + y.y] in floating point.  The two inner-product
    kernels it calls accumulate in an order that is the BLAS library's
    business; they are a parameter ([Kernels]), as is the rounding to the
    dtype of the arrays.  [np.argsort] is a parameter too ([ArgSort]), held
    to what numpy documents. *)

From Stdlib Require Import QArith.
From Stdlib Require Import PrimFloat FloatOps SpecFloat.
From stdpp Require Import base list sorting gmap strings.

Local Open Scope Z_scope.

(** ** Exceptions and the error monad *)

Inductive exn : Type :=
  | IndexError
  | KeyError
  | ValueError
  | AttributeError
  | FileNotFoundError
  | ColumnNotFoundError
  | EmptyDataError.

Inductive result (A : Type) : Type :=
  | Ok (a : A)
  | Raise (e : exn).
Arguments Ok {A} a.
Arguments Raise {A} e.

Definition bind {A B} (m : result A) (k : A → result B) : result B :=
  match m with
  | Ok a => k a
  | Raise e => Raise e
  end.

Notation "x ←! m ; k" := (bind m (λ x, k))
  (at level 20, m at level 100, k at level 200, right associativity).

(** [[f(x) for x in xs]]: the elements are evaluated left to right and the
    first exception aborts the comprehension. *)
Fixpoint comprehension {A B} (f : A → result B) (xs : list A) : result (list B) :=
  match xs with
  | [] => Ok []
  | x :: xs' =>
      y ←! f x;
      ys ←! comprehension f xs';
      Ok (y :: ys)
  end.

(** ** Python slicing *)

(** [xs[:k]] for a Python integer [k]: a non-negative [k] keeps the first [k]
    elements, a negative one drops the last [-k]. *)
Definition slice_to {A} (k : Z) (xs : list A) : list A :=
  if 0 <=? k then take (Z.to_nat k) xs
  else take (length xs - Z.to_nat (- k)) xs.

(** ** Vectors and matrices of doubles *)

Abbreviation vec := (list float).
Abbreviation matrix := (list (list float)).

(** The real number a finite double stands for (zero for the others). *)
Definition exact_value (f : float) : Q :=
  match Prim2SF f with
  | S754_finite s m e =>
      ((if s then -1 else 1) * inject_Z (Z.pos m) * Qpower 2 e)%Q
  | _ => 0%Q
  end.

(** Where a double sits among the others when numpy sorts: [-inf], then the
    finite ones by value, then [+inf], then NaN. *)
Definition np_class (f : float) : Z :=
  match Prim2SF f with
  | S754_nan => 2
  | S754_infinity false => 1
  | S754_infinity true => -1
  | _ => 0
  end.

(** The order [np.argsort] sorts doubles in. *)
Definition np_leb (a b : float) : bool :=
  (np_class a <? np_class b)
  || ((np_class a =? np_class b) && Qle_bool (exact_value a) (exact_value b)).

Definition np_le (a b : float) : Prop := np_leb a b = true.

(** ** [euclidean_distances] *)

(** [check_array]: at least one row, at least one column, every row of the
    width of the first, every entry finite. *)
Definition valid_array (m : matrix) : bool :=
  match m with
  | [] => false
  | r :: _ =>
      negb (Nat.eqb (length r) 0)
      && forallb (λ r', Nat.eqb (length r') (length r) && forallb is_finite r') m
  end.

Definition width (m : matrix) : nat :=
  match m with
  | [] => 0%nat
  | r :: _ => length r
  end.

(** [check_pairwise_arrays(X, Y)] passes. *)
Definition accepts (x y : matrix) : bool :=
  valid_array x && valid_array y && Nat.eqb (width x) (width y).

(** The inner products the routine asks of the linear-algebra library, an
    entry of [X @ Y.T] and a squared row norm ([einsum('ij,ij->i')]), and
    the rounding of a double to the dtype of the arrays ([astype]): the
    identity for [float64] arrays. *)
Class Kernels : Type := {
  dot : vec → vec → float;
  row_norm : vec → float;
  store : float → float
}.

(** The kernels on [float64] arrays that accumulate from zero, left to
    right.  On vectors with one coordinate there is one product and nothing
    to reorder. *)
Definition kernels_fold : Kernels :=
  {| dot u v := foldl (λ acc p, (acc + p.1 * p.2)%float) 0%float (zip u v);
     row_norm u := foldl (λ acc a, (acc + a * a)%float) 0%float u;
     store d := d |}.

(** [np.maximum(d, 0)], NaN passing through. *)
Definition clip_at_zero (d : float) : float :=
  if is_nan d then d else if (d <? 0)%float then 0%float else d.

Section distances.
Context {kern : Kernels}.

(** One entry of the result: [-2 * (x.y)], plus [x.x], plus [y.y], stored,
    clipped at zero, square root taken in the dtype of the arrays. *)
Definition pair_distance (u v : vec) : float :=
  store (sqrt (clip_at_zero
                 (store ((-2 * dot u v + row_norm u) + row_norm v)%float))).

(** [euclidean_distances(x, y)]: one row per row of [x], one column per row
    of [y]. *)
Definition euclidean_distances (x y : matrix) : result (list (list float)) :=
  if accepts x y then Ok ((λ u, pair_distance u <$> y) <$> x)
  else Raise ValueError.
End distances.

(** The key a row of distances gives to index [i]. *)
Definition key (ds : list float) (i : nat) : float :=
  default 0%float (ds !! i).

Definition key_le (ds : list float) (i j : nat) : Prop :=
  np_le (key ds i) (key ds j).

(** ** [np.argsort]

    The module calls [np.argsort] with its default [kind].  NumPy documents
    two things about the result for a one-dimensional row: it is a
    permutation of the positions of the row, and reading the row through it
    gives the entries in non-decreasing order (NaN last).  The default kind
    makes no promise on the relative order of equal entries.  The interface
    below is that contract. *)
Class ArgSort : Type := {
  argsort : list float → list nat;
  argsort_perm : ∀ ds, argsort ds ≡ₚ seq 0 (length ds);
  argsort_sorted : ∀ ds, StronglySorted (key_le ds) (argsort ds)
}.

(** Two sorts within the contract, by insertion.  They run the worked
    inputs; neither is offered as numpy's own algorithm. *)

(** Insertion of position [i] in front of the first position [j] with
    [cmp i j]. *)
Fixpoint insert_by (cmp : nat → nat → bool) (i : nat) (l : list nat) : list nat :=
  match l with
  | [] => [i]
  | j :: l' => if cmp i j then i :: j :: l' else j :: insert_by cmp i l'
  end.

Definition argsort_with (cmp : list float → nat → nat → bool) (ds : list float)
    : list nat :=
  foldr (insert_by (cmp ds)) [] (seq 0 (length ds)).

(** A position goes in front of every later position with a key at least as
    large: equal keys keep their original order. *)
Definition cmp_stable (ds : list float) (i j : nat) : bool :=
  np_leb (key ds i) (key ds j).

(** A position goes behind every later position with a key at most as large:
    equal keys come out in reverse order. *)
Definition cmp_last_first (ds : list float) (i j : nat) : bool :=
  negb (np_leb (key ds j) (key ds i)).

(** ** [Recommender._find_nearest] *)

(** [sorted_items[0]]: numpy raises [IndexError] on an array without rows. *)
Definition row0 {A} (m : list (list A)) : result (list A) :=
  match m with
  | [] => Raise IndexError
  | r :: _ => Ok r
  end.

Section find_nearest.
Context {sort : ArgSort} {kern : Kernels}.

Definition _find_nearest (x y : matrix) (K : Z) : result (list nat) :=
  dists ←! euclidean_distances x y;
  let sorted_items := reverse (argsort <$> dists) in
  r ←! row0 sorted_items;
  Ok (slice_to K r).
End find_nearest.

(** ** [np.setdiff1d(ar1, ar2, assume_unique=True)]

    With [assume_unique=True] numpy neither sorts nor deduplicates [ar1]; it
    returns [ar1[in1d(ar1, ar2, assume_unique=True, invert=True)]], a boolean
    mask applied to [ar1].  The mask below is the one numpy computes when
    neither argument repeats a value, which holds at the only call site: the
    first argument is a slice of a permutation and the second is the
    accumulator, shown duplicate-free further down. *)

Definition in1d (ar1 ar2 : list nat) (invert : bool) : list bool :=
  (λ a, xorb invert (bool_decide (a ∈ ar2))) <$> ar1.

(** Boolean-mask indexing [ar[mask]]. *)
Fixpoint mask_select {A} (ar : list A) (mask : list bool) : list A :=
  match ar, mask with
  | a :: ar', b :: mask' =>
      if b then a :: mask_select ar' mask' else mask_select ar' mask'
  | _, _ => []
  end.

Definition setdiff1d (ar1 ar2 : list nat) : list nat :=
  mask_select ar1 (in1d ar1 ar2 true).

(** ** The recommender *)

(** The catalogue table read with [index_col="id"]: one entry per line, the
    label of the line and the cells of its remaining columns. *)
Abbreviation table := (list (nat * list string)).

Record Recommender : Type := {
  encoder : string → vec;
  embeds_mf : matrix;
  embeds_use : matrix;
  items : table;
  interacted_items : gset nat
}.

Record config : Type := {
  K_use : Z;
  K_mf : Z;
  n_to_recommend : Z;
  use_buffer_multiplier : Z;
  mf_buffer_multiplier : Z
}.

Definition default_config : config :=
  {| K_use := 2; K_mf := 5; n_to_recommend := 5;
     use_buffer_multiplier := 10; mf_buffer_multiplier := 10 |}.

(** [self.items.loc[idx].item()]: [.loc] raises [KeyError] on an unknown
    label, gives the line as a series when the label occurs once and a frame
    when it occurs several times (a frame has no [item]); [item] raises
    [ValueError] unless the series has exactly one cell. *)
Definition loc_item (t : table) (idx : nat) : result string :=
  match filter (λ r, r.1 = idx) t with
  | [] => Raise KeyError
  | [(_, cells)] =>
      match cells with
      | [title] => Ok title
      | _ => Raise ValueError
      end
  | _ => Raise AttributeError
  end.

(** [m[None, i]]: the one-row matrix holding row [i]. *)
Definition row_matrix (m : matrix) (i : nat) : result matrix :=
  match m !! i with
  | Some r => Ok [r]
  | None => Raise IndexError
  end.

Section recommender.
Context {sort : ArgSort} {kern : Kernels}.
Variable self : Recommender.

(** The full semantic ranking the candidates are cut from. *)
Definition ranking (query : string) : list nat :=
  argsort (pair_distance (encoder self query) <$> embeds_use self).

(** Step 1: the nearest items of the query in the semantic space. *)
Definition candidates (query : string) (c : config) : result (list nat) :=
  let encoded_query := [encoder self query] in
  _find_nearest encoded_query (embeds_use self)
    (K_use c * use_buffer_multiplier c).

(** Steps 2 and 3: keep the items with an interaction, then the first
    [K_use] of them. *)
Definition interaction_filter (item_ids : list nat) : list nat :=
  filter (λ item_id, item_id ∈ interacted_items self) item_ids.

Definition seed_set (query : string) (c : config) : result (list nat) :=
  item_ids ←! candidates query c;
  let item_ids := interaction_filter item_ids in
  Ok (slice_to (K_use c) item_ids).

(** One turn of the loop of step 4: the accumulator after [item_id]. *)
Definition seed_step (c : config) (recs : list nat) (item_id : nat)
    : result (list nat) :=
  x ←! row_matrix (embeds_mf self) item_id;
  mf_items ←! _find_nearest x (embeds_mf self)
                (K_mf c * mf_buffer_multiplier c);
  let rec_ := slice_to (K_mf c) (setdiff1d mf_items recs) in
  Ok (recs ++ rec_).

Fixpoint seed_loop (c : config) (item_ids recs : list nat)
    : result (list nat) :=
  match item_ids with
  | [] => Ok recs
  | item_id :: rest =>
      recs' ←! seed_step c recs item_id;
      seed_loop c rest recs'
  end.

(** Steps 1 to 5: the identifiers behind the returned titles. *)
Definition recommend_ids (query : string) (c : config) : result (list nat) :=
  item_ids ←! seed_set query c;
  recs ←! seed_loop c item_ids [];
  Ok (slice_to (n_to_recommend c) recs).

Definition recommend (query : string) (c : config) : result (list string) :=
  recs ←! recommend_ids query c;
  comprehension (loc_item (items self)) recs.
End recommender.

(** ** The checks of [preprocess] *)

(** What [preprocess] meets before any numeric work: which paths exist, what
    [path_serialised.mkdir()] does if it is called, and what the two calls
    of [pd.read_csv] return: the column labels of the table read
    ([df.columns], where pandas has renamed a repeated name [name.1],
    [name.2], ... and has taken the index column out), or the exception
    pandas raises ([EmptyDataError] on a file without a header line,
    [ValueError] on an items file without the index column [id], a parser
    error, ...). *)
Record inputs : Type := {
  interactions_exists : bool;
  items_exists : bool;
  serialised_exists : bool;
  mkdir : result unit;
  df_intxn : result (list string);
  df_items : result (list string)
}.

Definition required_columns : list string := ["interaction"; "item"; "user"]%string.

(** [set(a) - set(b)] is truthy when some element of [a] is not in [b]. *)
Definition set_difference_nonempty (a b : list string) : bool :=
  bool_decide (Exists (λ s, s ∉ b) a).

(** [df[name]] raises [KeyError] for a column that is not there. *)
Definition column (columns : list string) (name : string) : result unit :=
  if bool_decide (name ∈ columns) then Ok () else Raise KeyError.

(** The part of [preprocess] that runs before the models are fitted; [Ok ()]
    means the numeric work starts. *)
Definition preprocess (i : inputs) : result unit :=
  if negb (interactions_exists i) then Raise FileNotFoundError
  else if negb (items_exists i) then Raise FileNotFoundError
  else
    _ ←! (if serialised_exists i then Ok () else mkdir i);
    intxn_columns ←! df_intxn i;
    items_columns ←! df_items i;
    if set_difference_nonempty intxn_columns required_columns
    then Raise ColumnNotFoundError
    else if negb (bool_decide ("title"%string ∈ items_columns))
    then Raise ColumnNotFoundError
    else
      _ ←! column items_columns "title";
      _ ←! column intxn_columns "interaction";
      _ ←! column intxn_columns "item";
      _ ←! column intxn_columns "user";
      Ok ().

(** ** [batch] and the title embeddings of [preprocess] *)

(** [math.ceil(a / b)] for a list length [a] and a Python integer [b],
    [None] standing for the [ZeroDivisionError] of [b = 0].  The source
    divides in floating point: the quotient is the double nearest to [a/b].
    It is [0.0] when [a/b] is at most [2^-1075]; otherwise, for [a] below
    [2^53] as list lengths are, its ceiling is the ceiling of [a/b]. *)
Definition ceil_div (a b : Z) : option Z :=
  if b =? 0 then None
  else if (0 <? b) && (a * 2 ^ 1075 <=? b) then Some 0
  else Some (- ((- a) / b)).

(** A slice bound [k] on a sequence of [len] elements: counted from the end
    when negative, and clipped to the sequence. *)
Definition clip (len : nat) (k : Z) : nat :=
  if 0 <=? k then Nat.min (Z.to_nat k) len else (len - Z.to_nat (- k))%nat.

(** [xs[a:b]]. *)
Definition slice {A} (a b : Z) (xs : list A) : list A :=
  drop (clip (length xs) a) (take (clip (length xs) b) xs).

(** [batch(items, batch_size)]; [None] is the [ZeroDivisionError]. *)
Definition batch {A} (items : list A) (batch_size : Z) : option (list (list A)) :=
  num_batches ← ceil_div (Z.of_nat (length items)) batch_size;
  Some ((λ batch_idx,
           slice (batch_size * batch_idx) (batch_size * (batch_idx + 1)) items)
        <$> seqZ 0 num_batches).

(** The default [batch_size=32]. *)
Definition batch_size_default : Z := 32.

(** [np.vstack(arrays)]: numpy raises [ValueError] when there is no array to
    stack. *)
Definition vstack (arrays : list matrix) : result matrix :=
  match arrays with
  | [] => Raise ValueError
  | _ => Ok (concat arrays)
  end.

(** The semantic embeddings [preprocess] saves: the titles are batched, the
    sentence encoder embeds each batch (one row per title) and the batches
    are stacked. *)
Definition title_embeddings (model_use : string → vec) (titles : list string)
    : result matrix :=
  match batch titles batch_size_default with
  | None => Raise ValueError
  | Some batched_titles =>
      let embeds_use : list matrix :=
        (λ batched : list string, model_use <$> batched) <$> batched_titles in
      vstack embeds_use
  end.

(** ** [Recommender.__init__] *)

(** What the constructor meets: the result of each of its five library
    calls, a value or the exception raised ([FileNotFoundError] on a missing
    file, the error of a failed download, ...).  The items table is given by
    its lines keyed by the [id] column, the interactions table by its
    (integer) columns by label. *)
Record saved : Type := {
  hub_load : result (string → vec);
  embeds_mf_npy : result matrix;
  embeds_use_npy : result matrix;
  items_csv : result table;
  interactions_csv : result (gmap string (list nat))
}.

Definition Recommender_init (files : saved) : result Recommender :=
  hub_encoder ←! hub_load files;
  mf ←! embeds_mf_npy files;
  use ←! embeds_use_npy files;
  lines ←! items_csv files;
  df ←! interactions_csv files;
  (* set(df["item"]) *)
  item ←! (match df !! "item"%string with
           | Some col => Ok col
           | None => Raise KeyError
           end);
  Ok {| encoder := hub_encoder;
        embeds_mf := mf;
        embeds_use := use;
        items := lines;
        interacted_items := list_to_set item |}.

(** ** Vocabulary of the statements *)

Section vocabulary.
Context {kern : Kernels}.

(** The distance [euclidean_distances] computes from [u] to row [i] of [y]. *)
Definition row_dist (u : vec) (y : matrix) (i : nat) : float :=
  default 0%float (pair_distance u <$> y !! i).

Definition nearer (u : vec) (y : matrix) (i j : nat) : Prop :=
  np_le (row_dist u y i) (row_dist u y j).

Definition same_distance (u : vec) (y : matrix) (i j : nat) : Prop :=
  nearer u y i j ∧ nearer u y j i.

(** Rows at the same distance are listed by ascending index. *)
Definition tie_ascending (u : vec) (y : matrix) (i j : nat) : Prop :=
  same_distance u y i j → (i < j)%nat.

(** Row [s] of [y] is at a smaller computed distance from [u] than every
    other row. *)
Definition strictly_nearest (u : vec) (y : matrix) (s : nat) : Prop :=
  ∀ j, j ≠ s → (j < length y)%nat → ¬ nearer u y j s.
End vocabulary.

(** The true squared Euclidean distance between two vectors of doubles. *)
Definition true_sq_dist (u v : vec) : Q :=
  foldr Qplus 0%Q
    (zip_with (λ a b, ((exact_value a - exact_value b)
                       * (exact_value a - exact_value b))%Q) u v).

Definition truly_nearer (u : vec) (y : matrix) (i j : nat) : Prop :=
  (default 0%Q (true_sq_dist u <$> y !! i)
   <= default 0%Q (true_sq_dist u <$> y !! j))%Q.

(** Two rows with the same entries. *)
Definition same_row (u v : vec) : Prop :=
  Forall2 (λ a b, (exact_value a == exact_value b)%Q) u v.

Definition is_ok {A} (r : result A) : bool :=
  match r with Ok _ => true | Raise _ => false end.

(** The alignment invariant of the data model: both embedding matrices are
    arrays scikit-learn accepts, with one row per catalogue item, and every
    row index is the label of exactly one line of the catalogue, with the
    title as its only cell. *)
Definition aligned (self : Recommender) : bool :=
  valid_array (embeds_use self)
  && valid_array (embeds_mf self)
  && Nat.eqb (length (embeds_use self)) (length (embeds_mf self))
  && forallb (λ i, is_ok (loc_item (items self) i))
       (seq 0 (length (embeds_mf self))).

(** The encoded query is a finite vector of the width of the semantic
    matrix. *)
Definition encodes (self : Recommender) (query : string) : bool :=
  accepts [encoder self query] (embeds_use self).

Definition with_use_buffer_multiplier (m : Z) (c : config) : config :=
  {| K_use := K_use c; K_mf := K_mf c; n_to_recommend := n_to_recommend c;
     use_buffer_multiplier := m;
     mf_buffer_multiplier := mf_buffer_multiplier c |}.

(** The catalogue of an items file whose lines carry the identifiers
    [0, 1, 2, ...] in file order and the title as their only other column. *)
Definition catalogue (titles : list string) : list (nat * list string) :=
  imap (λ i title, (i, [title])) titles.

Section as_specified.
Context {sort : ArgSort} {kern : Kernels}.

(** The ranking of the specification: the result is in non-decreasing order
    of the true Euclidean distance. *)
Definition returns_by_true_distance (u : vec) (y : matrix) (K : Z) : Prop :=
  ∃ l, _find_nearest [u] y K = Ok l ∧ StronglySorted (truly_nearer u y) l.

(** The tie-break of the specification: in the result of [_find_nearest]
    equal distances are listed by ascending row index. *)
Definition ties_by_index (u : vec) (y : matrix) (K : Z) : Prop :=
  ∀ l, _find_nearest [u] y K = Ok l → StronglySorted (tie_ascending u y) l.

(** The first seed heads the result whenever no other row of the
    collaborative matrix has its entries. *)
Definition first_seed_heads (self : Recommender) (query : string)
    (c : config) : Prop :=
  ∀ s rest,
    seed_set self query c = Ok (s :: rest) →
    1 ≤ K_mf c → 1 ≤ mf_buffer_multiplier c → 1 ≤ n_to_recommend c →
    (∀ j rj rs, j ≠ s → embeds_mf self !! j = Some rj →
                embeds_mf self !! s = Some rs → ¬ same_row rj rs) →
    ∃ title others,
      loc_item (items self) s = Ok title
      ∧ recommend self query c = Ok (title :: others).

(** No interaction, no seed, an empty result and no error. *)
Definition empty_without_error (self : Recommender) (query : string)
    (c : config) : Prop :=
  interacted_items self = ∅ →
  seed_set self query c = Ok [] ∧ recommend self query c = Ok [].
End as_specified.

(** ** Worked inputs *)

(** An interactions file without the [user] column, next to a well-formed
    items file. *)
Definition missing_user : inputs :=
  {| interactions_exists := true;
     items_exists := true;
     serialised_exists := true;
     mkdir := Ok ();
     df_intxn := Ok ["item"; "interaction"]%string;
     df_items := Ok ["title"]%string |}.

(** An interactions file with the three required columns and one more. *)
Definition extra_column : inputs :=
  {| interactions_exists := true;
     items_exists := true;
     serialised_exists := true;
     mkdir := Ok ();
     df_intxn := Ok ["user"; "item"; "interaction"; "timestamp"]%string;
     df_items := Ok ["title"]%string |}.

(** Six items on a line in each space; the query sits at the origin of the
    semantic space. *)
Definition demo : Recommender :=
  {| encoder := λ _, [0%float];
     embeds_use := [[2]; [1]; [4]; [3]; [6]; [5]]%float;
     embeds_mf := [[0]; [10]; [2]; [1]; [20]; [4]]%float;
     items := [(0%nat, ["A"%string]); (1%nat, ["B"%string]);
               (2%nat, ["C"%string]); (3%nat, ["D"%string]);
               (4%nat, ["E"%string]); (5%nat, ["F"%string])];
     interacted_items := {[0%nat; 2%nat; 4%nat]} |}.

(** The same catalogue before any interaction was recorded. *)
Definition demo_cold : Recommender :=
  {| encoder := encoder demo;
     embeds_use := embeds_use demo;
     embeds_mf := embeds_mf demo;
     items := items demo;
     interacted_items := ∅ |}.

(** The empty catalogue: no item, no interaction, matrices without rows. *)
Definition demo_empty : Recommender :=
  {| encoder := λ _, [0%float];
     embeds_mf := [];
     embeds_use := [];
     items := [];
     interacted_items := ∅ |}.

Definition demo_config : config :=
  {| K_use := 2; K_mf := 2; n_to_recommend := 3;
     use_buffer_multiplier := 3; mf_buffer_multiplier := 2 |}.

(** The worked catalogue with a collaborative matrix of a single row. *)
Definition demo_short : Recommender :=
  {| encoder := encoder demo;
     embeds_use := embeds_use demo;
     embeds_mf := [[0%float]];
     items := items demo;
     interacted_items := interacted_items demo |}.

(** The worked catalogue with a collaborative matrix of a single row that
    holds a NaN. *)
Definition demo_short_nan : Recommender :=
  {| encoder := encoder demo;
     embeds_use := embeds_use demo;
     embeds_mf := [[nan]];
     items := items demo;
     interacted_items := interacted_items demo |}.

(** Two items whose collaborative coordinates, [2^27 + 1] and [2^27], differ
    by one; item 1 is the one with an interaction and the nearer to the
    query. *)
Definition demo_close : Recommender :=
  {| encoder := λ _, [0%float];
     embeds_use := [[1]; [0]]%float;
     embeds_mf := [[134217729]; [134217728]]%float;
     items := [(0%nat, ["A"%string]); (1%nat, ["B"%string])];
     interacted_items := {[1%nat]} |}.

Definition one_of_each : config :=
  {| K_use := 1; K_mf := 1; n_to_recommend := 1;
     use_buffer_multiplier := 2; mf_buffer_multiplier := 1 |}.

(** The files of the worked catalogue, with four interaction lines. *)
Definition demo_files : saved :=
  {| hub_load := Ok (encoder demo);
     embeds_mf_npy := Ok (embeds_mf demo);
     embeds_use_npy := Ok (embeds_use demo);
     items_csv := Ok (items demo);
     interactions_csv :=
       Ok (<["item"%string := [0; 2; 4; 2]%nat]>
             (<["user"%string := [7; 7; 8; 9]%nat]>
              (<["interaction"%string := [1; 1; 1; 1]%nat]> ∅))) |}.

(** What the constructor makes of [demo_files]. *)
Definition demo_loaded : Recommender :=
  {| encoder := encoder demo;
     embeds_use := embeds_use demo;
     embeds_mf := embeds_mf demo;
     items := items demo;
     interacted_items := list_to_set [0; 2; 4; 2]%nat |}.

(** * Properties *)

(** ** The error monad *)

Lemma bind_Ok {A B} (m : result A) (k : A → result B) (b : B) :
  bind m k = Ok b ↔ ∃ a, m = Ok a ∧ k a = Ok b.
Proof.
  destruct m as [a|e]; simpl; split.
  - eauto.
  - by intros (a' & [= <-] & ?).
  - done.
  - by intros (? & ? & ?).
Qed.

Lemma comprehension_length {A B} (f : A → result B) xs ys :
  comprehension f xs = Ok ys → length ys = length xs.
Proof.
  revert ys. induction xs as [|x xs IH]; intros ys; simpl.
  - by intros [= <-].
  - intros (y & _ & (ys' & Hys & [= <-])%bind_Ok)%bind_Ok.
    simpl. f_equal. by apply IH.
Qed.

Lemma comprehension_total {A B} (f : A → result B) xs :
  Forall (λ x, ∃ y, f x = Ok y) xs → ∃ ys, comprehension f xs = Ok ys.
Proof.
  induction 1 as [|x xs [y Hy] _ [ys Hys]]; simpl; [by eexists|].
  rewrite Hy. simpl. rewrite Hys. simpl. by eexists.
Qed.

(** ** Slicing *)

Lemma slice_to_prefix {A} k (xs : list A) : slice_to k xs `prefix_of` xs.
Proof. unfold slice_to. case_match; apply prefix_take. Qed.

Lemma slice_to_sublist {A} k (xs : list A) : slice_to k xs `sublist_of` xs.
Proof. unfold slice_to. case_match; apply sublist_take. Qed.

Lemma slice_to_nonneg {A} k (xs : list A) :
  0 ≤ k → slice_to k xs = take (Z.to_nat k) xs.
Proof. intros Hk. unfold slice_to. destruct (Z.leb_spec 0 k); [done|lia]. Qed.

Lemma slice_to_length_le {A} k (xs : list A) :
  0 ≤ k → Z.of_nat (length (slice_to k xs)) ≤ k.
Proof. intros Hk. rewrite slice_to_nonneg, length_take by done. lia. Qed.

Lemma slice_to_all {A} k (xs : list A) :
  Z.of_nat (length xs) ≤ k → slice_to k xs = xs.
Proof.
  intros Hk. rewrite slice_to_nonneg by lia. apply take_ge. lia.
Qed.

Lemma slice_to_cons {A} k (x : A) xs :
  1 ≤ k → ∃ xs', slice_to k (x :: xs) = x :: xs'.
Proof.
  intros Hk. rewrite slice_to_nonneg by lia.
  destruct (Z.to_nat k) as [|n] eqn:Hn; [lia|]. simpl. by eexists.
Qed.

(** ** Strongly sorted lists *)

Lemma StronglySorted_sublist {A} (R : relation A) l1 l2 :
  l1 `sublist_of` l2 → StronglySorted R l2 → StronglySorted R l1.
Proof.
  induction 1 as [|x l1 l2 Hsub IH|x l1 l2 Hsub IH];
    rewrite ?StronglySorted_cons; [done|..].
  - intros [Hall Hs]. split; [|by apply IH].
    rewrite Forall_forall in Hall |- *. intros y Hy.
    apply Hall. by eapply elem_of_sublist.
  - intros [_ Hs]. by apply IH.
Qed.

(** ** Insertion-based [argsort] *)

Lemma insert_by_perm cmp i (l : list nat) : insert_by cmp i l ≡ₚ i :: l.
Proof.
  induction l as [|j l IH]; simpl; [done|].
  destruct (cmp i j); [done|]. rewrite IH. apply Permutation_swap.
Qed.

Lemma foldr_insert_by_perm cmp (l : list nat) :
  foldr (insert_by cmp) [] l ≡ₚ l.
Proof.
  induction l as [|i l IH]; simpl; [done|].
  by rewrite insert_by_perm, IH.
Qed.

Lemma argsort_with_perm cmp ds : argsort_with cmp ds ≡ₚ seq 0 (length ds).
Proof. apply foldr_insert_by_perm. Qed.

Lemma insert_by_sorted (R : relation nat) `{!Transitive R}
    (cmp : nat → nat → bool) (i : nat) (l : list nat) :
  (∀ j, j ∈ l → if cmp i j return Prop then R i j else R j i) →
  StronglySorted R l → StronglySorted R (insert_by cmp i l).
Proof.
  induction l as [|j l IH]; simpl; intros Hcmp Hs.
  { repeat constructor. }
  apply StronglySorted_cons in Hs as [Hall Hs].
  pose proof (Hcmp j (list_elem_of_here _ _)) as Hij.
  destruct (cmp i j).
  - apply StronglySorted_cons. split; [|by apply StronglySorted_cons].
    constructor; [done|].
    eapply Forall_impl; [exact Hall|]. intros k Hk. by trans j.
  - apply StronglySorted_cons. split.
    + rewrite insert_by_perm. by constructor.
    + apply IH; [|done]. intros k Hk. apply Hcmp. by right.
Qed.

Lemma foldr_insert_by_sorted (R : relation nat) `{!Transitive R}
    (cmp : nat → nat → bool) (s n : nat) :
  (∀ i j, (i < j)%nat → if cmp i j return Prop then R i j else R j i) →
  StronglySorted R (foldr (insert_by cmp) [] (seq s n)).
Proof.
  intros Hcmp. revert s. induction n as [|n IH]; intros s; simpl.
  { constructor. }
  apply insert_by_sorted; [done| |apply IH].
  intros j Hj. apply Hcmp.
  rewrite foldr_insert_by_perm in Hj. apply elem_of_seq in Hj. lia.
Qed.

(** The order of doubles is a total preorder. *)

Lemma np_le_spec a b :
  np_le a b
  ↔ np_class a < np_class b
    ∨ (np_class a = np_class b ∧ (exact_value a <= exact_value b)%Q).
Proof.
  unfold np_le, np_leb.
  rewrite orb_true_iff, andb_true_iff, Z.ltb_lt, Z.eqb_eq, Qle_bool_iff.
  done.
Qed.

Global Instance np_le_trans : Transitive np_le.
Proof.
  intros a b c. rewrite !np_le_spec.
  intros [Hab|[Hab Hab']] [Hbc|[Hbc Hbc']].
  - left. lia.
  - left. lia.
  - left. lia.
  - right. split; [lia|]. by eapply Qle_trans.
Qed.

Lemma np_le_total a b : np_le a b ∨ np_le b a.
Proof.
  rewrite !np_le_spec.
  destruct (Z.lt_trichotomy (np_class a) (np_class b)) as [Hlt|[Heq|Hgt]].
  - left. by left.
  - destruct (Qlt_le_dec (exact_value b) (exact_value a)) as [Hlt|Hle].
    + right. right. split; [done|]. by apply Qlt_le_weak.
    + left. by right.
  - right. by left.
Qed.

Lemma np_leb_false a b : np_leb a b = false → np_le b a.
Proof.
  intros Hab. destruct (np_le_total a b) as [Hle|Hle]; [|done].
  unfold np_le in Hle. congruence.
Qed.

Global Instance key_le_trans ds : Transitive (key_le ds).
Proof. intros i j k. unfold key_le. apply np_le_trans. Qed.

Lemma cmp_stable_key_le ds i j :
  if cmp_stable ds i j return Prop then key_le ds i j else key_le ds j i.
Proof.
  unfold cmp_stable, key_le.
  destruct (np_leb (key ds i) (key ds j)) eqn:Hle; [done|].
  by apply np_leb_false.
Qed.

Lemma cmp_last_first_key_le ds i j :
  if cmp_last_first ds i j return Prop then key_le ds i j else key_le ds j i.
Proof.
  unfold cmp_last_first, key_le.
  destruct (np_leb (key ds j) (key ds i)) eqn:Hle; simpl; [done|].
  by apply np_leb_false.
Qed.

(** A sort within the contract that keeps equal entries in their original
    order. *)
Definition argsort_stable : ArgSort :=
  {| argsort := argsort_with cmp_stable;
     argsort_perm := argsort_with_perm cmp_stable;
     argsort_sorted := λ ds,
       foldr_insert_by_sorted (key_le ds) (cmp_stable ds) 0 (length ds)
         (λ i j _, cmp_stable_key_le ds i j) |}.

(** A sort within the contract that lists equal entries with the larger
    position first. *)
Definition argsort_last_first : ArgSort :=
  {| argsort := argsort_with cmp_last_first;
     argsort_perm := argsort_with_perm cmp_last_first;
     argsort_sorted := λ ds,
       foldr_insert_by_sorted (key_le ds) (cmp_last_first ds) 0 (length ds)
         (λ i j _, cmp_last_first_key_le ds i j) |}.

Lemma StronglySorted_impl {A} (R S : relation A) l :
  (∀ x y, R x y → S x y) → StronglySorted R l → StronglySorted S l.
Proof.
  intros HRS. induction 1 as [|x l _ IH Hall]; constructor; [done|].
  eapply Forall_impl; [exact Hall|]. auto.
Qed.


(** ** [_find_nearest] on a single query row *)

Section find_nearest_facts.
Context {sort : ArgSort} {kern : Kernels}.

Lemma key_row_dist u y i : key (pair_distance u <$> y) i = row_dist u y i.
Proof. unfold key, row_dist. by rewrite list_lookup_fmap. Qed.

Global Instance nearer_trans u y : Transitive (nearer u y).
Proof. intros i j k. unfold nearer. apply np_le_trans. Qed.

Lemma find_nearest_single u y K :
  accepts [u] y = true →
  _find_nearest [u] y K = Ok (slice_to K (argsort (pair_distance u <$> y))).
Proof. intros Hok. unfold _find_nearest, euclidean_distances. by rewrite Hok. Qed.

Lemma find_nearest_rejects x y K :
  accepts x y = false → _find_nearest x y K = Raise ValueError.
Proof. intros Hno. unfold _find_nearest, euclidean_distances. by rewrite Hno. Qed.

Lemma find_nearest_inv u y K l :
  _find_nearest [u] y K = Ok l →
  accepts [u] y = true ∧ l = slice_to K (argsort (pair_distance u <$> y)).
Proof.
  destruct (accepts [u] y) eqn:Hok.
  - rewrite find_nearest_single by done. by intros [= <-].
  - by rewrite find_nearest_rejects.
Qed.

Lemma argsort_NoDup ds : NoDup (argsort ds).
Proof. rewrite argsort_perm. apply NoDup_seq. Qed.

Lemma argsort_elem_of ds i : i ∈ argsort ds ↔ (i < length ds)%nat.
Proof. rewrite argsort_perm, elem_of_seq. lia. Qed.

Lemma argsort_length ds : length (argsort ds) = length ds.
Proof. by rewrite argsort_perm, length_seq. Qed.

Lemma argsort_nearer u y :
  StronglySorted (nearer u y) (argsort (pair_distance u <$> y)).
Proof.
  eapply StronglySorted_impl; [|apply argsort_sorted].
  intros i j. unfold key_le, nearer. by rewrite !key_row_dist.
Qed.

Lemma find_nearest_NoDup u y K l : _find_nearest [u] y K = Ok l → NoDup l.
Proof.
  intros [_ ->]%find_nearest_inv.
  eapply sublist_NoDup; [apply argsort_NoDup|apply slice_to_sublist].
Qed.

Lemma find_nearest_bound u y K l i :
  _find_nearest [u] y K = Ok l → i ∈ l → (i < length y)%nat.
Proof.
  intros [_ ->]%find_nearest_inv Hi.
  eapply elem_of_sublist in Hi; [|apply slice_to_sublist].
  apply argsort_elem_of in Hi. by rewrite length_fmap in Hi.
Qed.

Lemma find_nearest_nearer u y K l :
  _find_nearest [u] y K = Ok l → StronglySorted (nearer u y) l.
Proof.
  intros [_ ->]%find_nearest_inv.
  eapply StronglySorted_sublist; [apply slice_to_sublist|].
  apply argsort_nearer.
Qed.

(** C3, amended: for a query row [u] and a matrix [y] that scikit-learn
    accepts (at least one row, the width of [u], finite entries) and any
    integer [K], [_find_nearest] returns row indices of [y], none twice, in
    non-decreasing order of the distance [euclidean_distances] computes; the
    result is the first [K] entries of the full ranking when [0 <= K], and
    every row index when [K] is at least the number of rows.  For any other
    [y] it raises [ValueError]. *)
Theorem find_nearest_sorted (u : vec) (y : matrix) (K : Z) :
  (accepts [u] y = true →
   ∃ l, _find_nearest [u] y K = Ok l
        ∧ StronglySorted (nearer u y) l
        ∧ NoDup l
        ∧ (∀ i, i ∈ l → (i < length y)%nat)
        ∧ (0 ≤ K → length l = Nat.min (Z.to_nat K) (length y))
        ∧ (Z.of_nat (length y) ≤ K → l ≡ₚ seq 0 (length y)))
  ∧ (accepts [u] y = false → _find_nearest [u] y K = Raise ValueError).
Proof.
  split; [|apply find_nearest_rejects].
  intros Hok. pose proof (find_nearest_single u y K Hok) as Hrun.
  eexists. split; [exact Hrun|]. split_and!.
  - by eapply find_nearest_nearer.
  - by eapply find_nearest_NoDup.
  - intros i Hi. by eapply find_nearest_bound.
  - intros HK. rewrite slice_to_nonneg, length_take, argsort_length by done.
    by rewrite length_fmap.
  - intros HK. rewrite slice_to_all.
    + by rewrite argsort_perm, length_fmap.
    + by rewrite argsort_length, length_fmap.
Qed.

(** C4, amended: rows at the same computed distance sit next to each other
    in the result, in an order this code does not fix: whatever stands
    between two of them is at that distance too. *)
Theorem find_nearest_ties_contiguous (u : vec) (y : matrix) (K : Z)
    (l1 l2 l3 : list nat) (i j k : nat) :
  _find_nearest [u] y K = Ok (l1 ++ i :: l2 ++ j :: l3) →
  same_distance u y i j →
  k ∈ l2 →
  same_distance u y i k ∧ same_distance u y k j.
Proof.
  intros Hrun%find_nearest_nearer [Hij Hji] Hk.
  apply StronglySorted_app in Hrun as (_ & _ & Hrun).
  apply StronglySorted_cons in Hrun as [Hi Hrun].
  rewrite Forall_forall in Hi.
  assert (Hik : nearer u y i k).
  { apply Hi. apply elem_of_app. by left. }
  apply StronglySorted_app in Hrun as (Hkj & _ & _).
  assert (Hkj' : nearer u y k j) by (apply Hkj; [done|by left]).
  split; split; [done| |done|].
  - by trans j.
  - by trans i.
Qed.
End find_nearest_facts.

(** Under binary64 rounding the rows [2^27 + 2] and [2^27 + 3] come out at
    distances 2 and 0 from the query [2^27 + 1], whatever the sort. *)
Lemma find_nearest_inverts (sort : ArgSort) :
  @_find_nearest sort kernels_fold [[134217729%float]]
    [[134217730]; [134217731]]%float 2 = Ok [1; 0]%nat.
Proof.
  rewrite find_nearest_single by reflexivity.
  change (pair_distance _ <$> _) with [2%float; 0%float].
  pose proof (argsort_perm [2%float; 0%float]) as Hperm.
  pose proof (argsort_sorted [2%float; 0%float]) as Hsorted.
  symmetry in Hperm. apply Permutation_length_2_inv in Hperm as [Heq|Heq];
    rewrite Heq in *; [|done].
  apply StronglySorted_cons in Hsorted as [Hle _].
  apply Forall_cons in Hle as [Hle _]. by vm_compute in Hle.
Qed.

(** C3, refuted: the result is not in the order of the true distances. The
    query is [2^27 + 1]; row 0 is at true distance 1 and row 1 at true
    distance 2, and the code lists row 1 first. *)
Lemma find_nearest_not_by_true_distance :
  ¬ @returns_by_true_distance argsort_stable kernels_fold
      [134217729%float] [[134217730]; [134217731]]%float 2.
Proof.
  intros (l & Hrun & Hsorted).
  rewrite find_nearest_inverts in Hrun. injection Hrun as <-.
  apply StronglySorted_cons in Hsorted as [Hle _].
  apply Forall_cons in Hle as [Hle _].
  unfold truly_nearer in Hle. by vm_compute in Hle.
Qed.

(** C4, refuted: the order of equal entries is not by ascending index.  The
    default kind of [np.argsort] is not a stable sort; for the keys
    [1; 1; 0; 0] a sort within its contract, as numpy's own vectorised one,
    returns the positions [3; 2; 1; 0]. *)
Lemma find_nearest_ties_not_by_index :
  ¬ @ties_by_index argsort_last_first kernels_fold
      [0%float] [[1]; [1]; [0]; [0]]%float 4.
Proof.
  intros Hties.
  specialize (Hties [3; 2; 1; 0]%nat eq_refl).
  apply StronglySorted_cons in Hties as [Hall _].
  apply Forall_cons in Hall as [Hlt _].
  unfold tie_ascending in Hlt. cut (3 < 2)%nat; [lia|].
  apply Hlt. split; reflexivity.
Qed.

(** ** [setdiff1d] is the order-preserving difference *)

Lemma setdiff1d_filter ar1 ar2 :
  setdiff1d ar1 ar2 = filter (λ a, a ∉ ar2) ar1.
Proof.
  unfold setdiff1d, in1d. induction ar1 as [|a ar1 IH]; [done|].
  rewrite fmap_cons, filter_cons. cbn [mask_select].
  destruct (decide (a ∈ ar2)) as [Hin|Hout].
  - rewrite bool_decide_eq_true_2 by done. cbn [xorb].
    by rewrite decide_False by (by intros ?).
  - rewrite bool_decide_eq_false_2 by done. cbn [xorb].
    rewrite decide_True by done. by f_equal.
Qed.

Lemma setdiff1d_nil ar1 : setdiff1d ar1 [] = ar1.
Proof.
  rewrite setdiff1d_filter. induction ar1 as [|a ar1 IH]; [done|].
  rewrite filter_cons_True by apply not_elem_of_nil. by rewrite IH.
Qed.

(** ** The seed set *)

Lemma valid_array_row (m : matrix) (i : nat) (r : vec) :
  valid_array m = true → m !! i = Some r → accepts [r] m = true.
Proof.
  intros Hvalid Hr. unfold accepts. rewrite Hvalid.
  destruct m as [|r0 m]; [done|].
  unfold valid_array in Hvalid.
  apply andb_true_iff in Hvalid as [Hwidth Hrows].
  pose proof (proj1 (forallb_forall _ _) Hrows r) as Hrow.
  apply list_elem_of_lookup_2, list_elem_of_In in Hr.
  apply Hrow, andb_true_iff in Hr as [Hlen Hfin]. apply Nat.eqb_eq in Hlen.
  cbn [valid_array width forallb length].
  rewrite Hlen, Hwidth, !Nat.eqb_refl, Hfin. done.
Qed.

Section recommender_facts.
Context {sort : ArgSort} {kern : Kernels}.
Variable self : Recommender.

Lemma candidates_run query c :
  encodes self query = true →
  candidates self query c
  = Ok (slice_to (K_use c * use_buffer_multiplier c) (ranking self query)).
Proof. intros Hok. unfold candidates. by rewrite find_nearest_single. Qed.

Lemma candidates_inv query c cands :
  candidates self query c = Ok cands →
  encodes self query = true
  ∧ cands = slice_to (K_use c * use_buffer_multiplier c) (ranking self query).
Proof. unfold candidates. apply find_nearest_inv. Qed.

Lemma seed_set_run query c :
  encodes self query = true →
  seed_set self query c
  = Ok (slice_to (K_use c)
          (interaction_filter self
             (slice_to (K_use c * use_buffer_multiplier c)
                (ranking self query)))).
Proof. intros Hok. unfold seed_set. by rewrite candidates_run. Qed.

Lemma seed_set_inv query c seeds :
  seed_set self query c = Ok seeds →
  encodes self query = true
  ∧ seeds = slice_to (K_use c)
              (interaction_filter self
                 (slice_to (K_use c * use_buffer_multiplier c)
                    (ranking self query))).
Proof.
  unfold seed_set.
  intros (cands & [Hok ->]%candidates_inv & [= <-])%bind_Ok. done.
Qed.

Lemma seed_set_elem_of query c seeds i :
  seed_set self query c = Ok seeds → i ∈ seeds →
  i ∈ interacted_items self ∧ (i < length (embeds_use self))%nat.
Proof.
  intros [_ ->]%seed_set_inv Hi.
  eapply elem_of_sublist in Hi; [|apply slice_to_sublist].
  apply list_elem_of_filter in Hi as [Hin Hi]. split; [done|].
  eapply elem_of_sublist in Hi; [|apply slice_to_sublist].
  apply argsort_elem_of in Hi. by rewrite length_fmap in Hi.
Qed.

(** C6: when the seed set is computed, the candidate list was, each member
    of the seed set belongs to [interacted_items], the interaction filter
    returns a subsequence of the nearest-first candidate list, so relative
    order is kept, and the seed set is an initial segment of the filtered
    list, hence a subsequence of the candidate list too. *)
Theorem seed_set_interacted (query : string) (c : config)
    (seeds : list nat) :
  seed_set self query c = Ok seeds →
  ∃ cands,
    candidates self query c = Ok cands
    ∧ (∀ i, i ∈ seeds → i ∈ interacted_items self)
    ∧ interaction_filter self cands `sublist_of` cands
    ∧ seeds `prefix_of` interaction_filter self cands
    ∧ seeds `sublist_of` cands.
Proof.
  intros Hseeds. pose proof Hseeds as [Hok ->]%seed_set_inv.
  eexists. split; [by apply candidates_run|].
  assert (Hsub : ∀ l : list nat,
    slice_to (K_use c) (interaction_filter self l) `sublist_of` l).
  { intros l. etrans; [apply slice_to_sublist|]. apply sublist_filter. }
  split_and!.
  - intros i Hi. by eapply seed_set_elem_of.
  - apply sublist_filter.
  - apply slice_to_prefix.
  - apply Hsub.
Qed.

Lemma take_filter_prefix (P : nat → Prop) `{!∀ i, Decision (P i)}
    (l : list nat) (a b k : nat) :
  (a ≤ b)%nat →
  take k (filter P (take a l)) `prefix_of` take k (filter P (take b l)).
Proof.
  intros Hab.
  assert (Hpre : filter P (take a l) `prefix_of` filter P (take b l)).
  { replace (take a l) with (take a (take b l))
      by (rewrite take_take; f_equal; lia).
    rewrite <-(take_drop a (take b l)) at 2.
    rewrite filter_app. by apply prefix_app_r. }
  destruct Hpre as [l' ->].
  rewrite take_app. by apply prefix_app_r.
Qed.

(** C9: with [K_use] and both multipliers non-negative, raising
    [use_buffer_multiplier] from [m] to [m'] and leaving every other
    parameter as it is never loses a seed: the seed set for [m] is an initial
    segment of the seed set for [m'], hence not longer. *)
Theorem seed_count_monotone (query : string) (c : config) (m m' : Z)
    (seeds seeds' : list nat) :
  0 ≤ K_use c → 0 ≤ m → m ≤ m' →
  seed_set self query (with_use_buffer_multiplier m c) = Ok seeds →
  seed_set self query (with_use_buffer_multiplier m' c) = Ok seeds' →
  seeds `prefix_of` seeds' ∧ (length seeds ≤ length seeds')%nat.
Proof.
  intros HK Hm Hmm' [_ ->]%seed_set_inv [_ ->]%seed_set_inv. simpl.
  rewrite !(slice_to_nonneg (K_use c)) by done.
  rewrite !(slice_to_nonneg (K_use c * _)) by nia.
  assert (Hgoal : take (Z.to_nat (K_use c))
      (interaction_filter self (take (Z.to_nat (K_use c * m)) (ranking self query)))
    `prefix_of` take (Z.to_nat (K_use c))
      (interaction_filter self (take (Z.to_nat (K_use c * m')) (ranking self query)))).
  { apply take_filter_prefix. nia. }
  split; [done|]. by apply prefix_length.
Qed.
End recommender_facts.

(** ** The per-seed loop and the accumulator *)

Section accumulator.
Context {sort : ArgSort} {kern : Kernels}.
Variable self : Recommender.

Lemma seed_step_inv c recs item_id recs' :
  seed_step self c recs item_id = Ok recs' →
  ∃ r mf_items,
    embeds_mf self !! item_id = Some r
    ∧ _find_nearest [r] (embeds_mf self)
        (K_mf c * mf_buffer_multiplier c) = Ok mf_items
    ∧ recs' = recs ++ slice_to (K_mf c) (setdiff1d mf_items recs).
Proof.
  unfold seed_step, row_matrix.
  destruct (embeds_mf self !! item_id) as [r|]; [|done].
  cbn [bind].
  destruct (_find_nearest [r] (embeds_mf self)
              (K_mf c * mf_buffer_multiplier c)) as [mf_items|] eqn:Hmf;
    [|done].
  cbn [bind]. intros [= <-]. by exists r, mf_items.
Qed.

Lemma seed_step_total c recs item_id :
  valid_array (embeds_mf self) = true →
  (item_id < length (embeds_mf self))%nat →
  ∃ recs', seed_step self c recs item_id = Ok recs'.
Proof.
  intros Hvalid [r Hr]%lookup_lt_is_Some_2.
  unfold seed_step, row_matrix. rewrite Hr. cbn [bind].
  rewrite find_nearest_single by by eapply valid_array_row.
  cbn [bind]. by eexists.
Qed.

(** C5: one turn of the loop.  The identifiers kept for a seed are the
    neighbour-list identifiers that are not in the accumulator, in the order
    of the neighbour list; the first [K_mf] of them are appended to the
    accumulator in that order. *)
Theorem seed_step_dedup (c : config) (recs : list nat) (item_id : nat)
    (recs' : list nat) :
  seed_step self c recs item_id = Ok recs' →
  ∃ r mf_items kept,
    embeds_mf self !! item_id = Some r
    ∧ _find_nearest [r] (embeds_mf self)
        (K_mf c * mf_buffer_multiplier c) = Ok mf_items
    ∧ kept = setdiff1d mf_items recs
    ∧ (∀ i, i ∈ kept ↔ i ∈ mf_items ∧ i ∉ recs)
    ∧ kept `sublist_of` mf_items
    ∧ kept = filter (λ i, i ∉ recs) mf_items
    ∧ recs' = recs ++ slice_to (K_mf c) kept
    ∧ (0 ≤ K_mf c → recs' = recs ++ take (Z.to_nat (K_mf c)) kept).
Proof.
  intros (r & mf_items & Hr & Hmf & ->)%seed_step_inv.
  exists r, mf_items, (setdiff1d mf_items recs).
  split_and!; try done.
  - intros i. rewrite setdiff1d_filter, list_elem_of_filter. tauto.
  - rewrite setdiff1d_filter. apply sublist_filter.
  - apply setdiff1d_filter.
  - intros HK. by rewrite slice_to_nonneg.
Qed.

Lemma seed_step_NoDup c recs item_id recs' :
  NoDup recs → seed_step self c recs item_id = Ok recs' → NoDup recs'.
Proof.
  intros Hrecs (r & mf_items & _ & Hmf & ->)%seed_step_inv.
  apply NoDup_app. split_and!; [done| |].
  - intros i Hi Hi'.
    eapply elem_of_sublist in Hi'; [|apply slice_to_sublist].
    rewrite setdiff1d_filter in Hi'.
    by apply list_elem_of_filter in Hi' as [? _].
  - eapply sublist_NoDup; [|apply slice_to_sublist].
    rewrite setdiff1d_filter. apply NoDup_filter.
    by eapply find_nearest_NoDup.
Qed.

Lemma seed_loop_NoDup c item_ids recs out :
  NoDup recs → seed_loop self c item_ids recs = Ok out → NoDup out.
Proof.
  revert recs. induction item_ids as [|i item_ids IH]; intros recs Hrecs.
  - by intros [= <-].
  - simpl. intros (recs' & Hstep & Hloop)%bind_Ok.
    eapply IH; [|done]. by eapply seed_step_NoDup.
Qed.

Lemma seed_loop_prefix c item_ids recs out :
  seed_loop self c item_ids recs = Ok out → recs `prefix_of` out.
Proof.
  revert recs. induction item_ids as [|i item_ids IH]; intros recs.
  - by intros [= <-].
  - simpl. intros (recs' & Hstep & Hloop)%bind_Ok.
    apply IH in Hloop.
    apply seed_step_inv in Hstep as (r & mf_items & _ & _ & ->).
    etrans; [|exact Hloop]. by apply prefix_app_r.
Qed.

Lemma recommend_inv query c titles :
  recommend self query c = Ok titles →
  ∃ seeds recs,
    seed_set self query c = Ok seeds
    ∧ seed_loop self c seeds [] = Ok recs
    ∧ recommend_ids self query c = Ok (slice_to (n_to_recommend c) recs)
    ∧ comprehension (loc_item (items self))
        (slice_to (n_to_recommend c) recs) = Ok titles.
Proof.
  unfold recommend. intros (ids & Hids & Htitles)%bind_Ok.
  rewrite Hids. unfold recommend_ids in Hids.
  apply bind_Ok in Hids as (seeds & Hseeds & Hids).
  apply bind_Ok in Hids as (recs & Hrecs & [= <-]).
  by exists seeds, recs.
Qed.

(** C1: with a non-negative [n_to_recommend], a list returned by
    [recommend] has at most [n_to_recommend] entries. *)
Theorem recommend_length (query : string) (c : config) (titles : list string) :
  0 ≤ n_to_recommend c →
  recommend self query c = Ok titles →
  Z.of_nat (length titles) ≤ n_to_recommend c.
Proof.
  intros Hn (seeds & recs & _ & _ & _ & Htitles)%recommend_inv.
  apply comprehension_length in Htitles. rewrite Htitles.
  by apply slice_to_length_le.
Qed.

(** C2: the accumulator holds no identifier twice, whichever seeds have been
    processed so far; the identifiers behind the returned titles are the
    truncated accumulator and hold no identifier twice either. *)
Theorem recommend_no_duplicates (query : string) (c : config) :
  (∀ item_ids recs, seed_loop self c item_ids [] = Ok recs → NoDup recs)
  ∧ (∀ ids, recommend_ids self query c = Ok ids → NoDup ids)
  ∧ (∀ titles, recommend self query c = Ok titles →
       ∃ ids, recommend_ids self query c = Ok ids
              ∧ NoDup ids
              ∧ comprehension (loc_item (items self)) ids = Ok titles).
Proof.
  assert (Hloop : ∀ item_ids recs,
    seed_loop self c item_ids [] = Ok recs → NoDup recs).
  { intros item_ids recs. apply seed_loop_NoDup, NoDup_nil_2. }
  assert (Hids : ∀ ids, recommend_ids self query c = Ok ids → NoDup ids).
  { intros ids. unfold recommend_ids.
    intros (seeds & _ & (recs & Hrecs & [= <-])%bind_Ok)%bind_Ok.
    eapply sublist_NoDup; [by eapply Hloop|apply slice_to_sublist]. }
  split_and!; [done..|].
  intros titles (seeds & recs & _ & _ & Hrec & Htitles)%recommend_inv.
  eexists. split_and!; [done| |done]. by apply Hids.
Qed.
End accumulator.

(** ** Running to completion on an aligned store *)

Lemma aligned_spec self :
  aligned self = true →
  valid_array (embeds_use self) = true
  ∧ valid_array (embeds_mf self) = true
  ∧ length (embeds_use self) = length (embeds_mf self)
  ∧ ∀ i, (i < length (embeds_mf self))%nat →
         ∃ title, loc_item (items self) i = Ok title.
Proof.
  unfold aligned.
  intros [[[Huse Hmf]%andb_true_iff Hlen]%andb_true_iff Hall]%andb_true_iff.
  split_and!; [done|done|by apply Nat.eqb_eq|]. intros i Hi.
  rewrite forallb_forall in Hall.
  specialize (Hall i). rewrite <-list_elem_of_In, elem_of_seq in Hall.
  destruct (loc_item (items self) i) as [title|e]; [by eexists|].
  by specialize (Hall ltac:(lia)).
Qed.

Lemma slice_to_nil {A} k : slice_to k (@nil A) = [].
Proof. unfold slice_to. case_match; apply take_nil. Qed.

Lemma filter_empty_set (X : gset nat) (l : list nat) :
  X = ∅ → filter (λ i, i ∈ X) l = [].
Proof.
  intros ->. induction l as [|i l IH]; [done|].
  by rewrite filter_cons_False by set_solver.
Qed.

Lemma slice_to_length {A} k (xs : list A) :
  0 ≤ k → length (slice_to k xs) = Nat.min (Z.to_nat k) (length xs).
Proof. intros Hk. rewrite slice_to_nonneg by done. apply length_take. Qed.

Section completion.
Context {sort : ArgSort} {kern : Kernels}.
Variable self : Recommender.

Let n : nat := length (embeds_mf self).

Lemma seed_step_bound c recs item_id recs' :
  Forall (λ i, (i < n)%nat) recs →
  seed_step self c recs item_id = Ok recs' →
  Forall (λ i, (i < n)%nat) recs'.
Proof.
  intros Hrecs (r & mf_items & _ & Hmf & ->)%seed_step_inv.
  apply Forall_app. split; [done|].
  apply Forall_forall. intros i Hi.
  eapply elem_of_sublist in Hi; [|apply slice_to_sublist].
  rewrite setdiff1d_filter in Hi. apply list_elem_of_filter in Hi as [_ Hi].
  by eapply find_nearest_bound.
Qed.

Lemma seed_loop_total c item_ids recs :
  valid_array (embeds_mf self) = true →
  Forall (λ i, (i < n)%nat) item_ids →
  Forall (λ i, (i < n)%nat) recs →
  ∃ out, seed_loop self c item_ids recs = Ok out
         ∧ Forall (λ i, (i < n)%nat) out.
Proof.
  intros Hvalid Hids. revert recs.
  induction Hids as [|i item_ids Hi _ IH]; intros recs Hrecs; simpl.
  { by exists recs. }
  destruct (seed_step_total self c recs i Hvalid Hi) as [recs' Hstep].
  rewrite Hstep. cbn [bind]. apply IH. by eapply seed_step_bound.
Qed.

Lemma seed_loop_length c item_ids recs out :
  0 ≤ K_mf c →
  seed_loop self c item_ids recs = Ok out →
  Z.of_nat (length out)
  ≤ Z.of_nat (length recs) + Z.of_nat (length item_ids) * K_mf c.
Proof.
  intros HK. revert recs.
  induction item_ids as [|i item_ids IH]; intros recs; simpl.
  { intros [= <-]. lia. }
  intros (recs' & Hstep & Hloop)%bind_Ok. apply IH in Hloop.
  apply seed_step_inv in Hstep as (r & mf_items & _ & _ & ->).
  rewrite length_app in Hloop.
  pose proof (slice_to_length_le (K_mf c) (setdiff1d mf_items recs) HK).
  lia.
Qed.

Lemma recommend_total_from query c seeds :
  aligned self = true →
  seed_set self query c = Ok seeds →
  ∃ recs titles,
    seed_loop self c seeds [] = Ok recs
    ∧ comprehension (loc_item (items self))
        (slice_to (n_to_recommend c) recs) = Ok titles
    ∧ recommend self query c = Ok titles.
Proof.
  intros (_ & Hvalid & Hlen & Htitle)%aligned_spec Hseeds.
  assert (Hbound : Forall (λ i, (i < n)%nat) seeds).
  { apply Forall_forall. intros i Hi. unfold n. rewrite <-Hlen.
    by eapply seed_set_elem_of. }
  destruct (seed_loop_total c seeds [] Hvalid Hbound) as (recs & Hrecs & Hall);
    [done|].
  destruct (comprehension_total (loc_item (items self))
              (slice_to (n_to_recommend c) recs)) as [titles Htitles].
  { apply Forall_forall. intros i Hi. apply Htitle.
    eapply elem_of_sublist in Hi; [|apply slice_to_sublist].
    rewrite Forall_forall in Hall. by apply Hall. }
  exists recs, titles. split_and!; [done..|].
  unfold recommend, recommend_ids. rewrite Hseeds. cbn [bind].
  rewrite Hrecs. by cbn [bind].
Qed.

Lemma argsort_head_strict u y s :
  (s < length y)%nat → strictly_nearest u y s →
  ∃ tl, argsort (pair_distance u <$> y) = s :: tl.
Proof.
  intros Hs Hstrict.
  pose proof (argsort_nearer u y) as Hsorted.
  pose proof (argsort_elem_of (pair_distance u <$> y)) as Helem.
  destruct (argsort (pair_distance u <$> y)) as [|h tl].
  { specialize (Helem s). rewrite length_fmap in Helem.
    apply Helem in Hs. by apply elem_of_nil in Hs. }
  exists tl. f_equal.
  destruct (decide (h = s)) as [|Hne]; [done|]. exfalso.
  apply (Hstrict h Hne).
  { rewrite <-(length_fmap (pair_distance u)). apply Helem. by left. }
  apply StronglySorted_cons in Hsorted as [Hhead _].
  rewrite Forall_forall in Hhead. apply Hhead.
  assert (Hin : s ∈ h :: tl).
  { apply Helem. by rewrite length_fmap. }
  apply elem_of_cons in Hin as [|]; [congruence|done].
Qed.

(** C8, amended: when the encoded query is a finite vector of the width of
    a semantic matrix scikit-learn accepts, an empty [interacted_items]
    gives an empty seed set and [recommend] returns the empty list; on an
    aligned store [recommend] then returns a list for every configuration,
    and a shortage only shortens: with non-negative counts the seeds are the
    first [K_use] filtered candidates or all of them, the accumulator holds
    at most [K_mf] identifiers per seed, and the titles are those of the
    first [n_to_recommend] accumulated identifiers or of all of them. *)
Theorem recommend_degenerate (query : string) (c : config) :
  encodes self query = true →
  (interacted_items self = ∅ →
     seed_set self query c = Ok [] ∧ recommend self query c = Ok [])
  ∧ (aligned self = true →
     ∃ cands seeds recs titles,
       candidates self query c = Ok cands
       ∧ seed_set self query c = Ok seeds
       ∧ seed_loop self c seeds [] = Ok recs
       ∧ recommend self query c = Ok titles
       ∧ (0 ≤ K_use c →
          length seeds
          = Nat.min (Z.to_nat (K_use c))
              (length (interaction_filter self cands)))
       ∧ (0 ≤ K_mf c →
          Z.of_nat (length recs) ≤ Z.of_nat (length seeds) * K_mf c)
       ∧ (0 ≤ n_to_recommend c →
          length titles
          = Nat.min (Z.to_nat (n_to_recommend c)) (length recs))).
Proof.
  intros Hok. split.
  - intros Hempty.
    assert (Hseeds : seed_set self query c = Ok []).
    { rewrite seed_set_run by done. unfold interaction_filter.
      by rewrite filter_empty_set, slice_to_nil. }
    split; [done|].
    unfold recommend, recommend_ids. rewrite Hseeds. cbn [bind seed_loop].
    by rewrite slice_to_nil.
  - intros Haligned.
    pose proof (seed_set_run self query c Hok) as Hseeds.
    destruct (recommend_total_from query c _ Haligned Hseeds)
      as (recs & titles & Hloop & Htitles & Hrec).
    eexists _, _, recs, titles.
    split_and!; [by apply candidates_run|exact Hseeds|done..| | |].
    + intros HK. by apply slice_to_length.
    + intros HK. by apply seed_loop_length in Hloop.
    + intros Hn. apply comprehension_length in Htitles.
      rewrite Htitles. by apply slice_to_length.
Qed.

(** C10, amended: on an aligned store, if the seed set starts with [s], the
    three counts [K_mf], [mf_buffer_multiplier] and [n_to_recommend] are at
    least one, and every other row of the collaborative matrix is at a
    larger computed distance from row [s] than row [s] itself, then the
    returned list starts with the title of [s]. *)
Theorem first_seed_first (query : string) (c : config) (s : nat)
    (rest : list nat) :
  aligned self = true →
  seed_set self query c = Ok (s :: rest) →
  1 ≤ K_mf c → 1 ≤ mf_buffer_multiplier c → 1 ≤ n_to_recommend c →
  (∀ rs, embeds_mf self !! s = Some rs →
         strictly_nearest rs (embeds_mf self) s) →
  ∃ title others,
    loc_item (items self) s = Ok title
    ∧ recommend self query c = Ok (title :: others).
Proof.
  intros Haligned Hseeds HK Hbuf Hn Hstrict.
  destruct (recommend_total_from query c _ Haligned Hseeds)
    as (recs & titles & Hloop & Htitles & Hrec).
  assert (Hs : (s < n)%nat).
  { unfold n. apply aligned_spec in Haligned as (_ & _ & <- & _).
    eapply seed_set_elem_of; [done|]. by left. }
  pose proof Hs as [rs Hrs]%lookup_lt_is_Some_2.
  destruct (argsort_head_strict rs (embeds_mf self) s Hs (Hstrict rs Hrs))
    as [tl Htl].
  simpl in Hloop. apply bind_Ok in Hloop as (recs1 & Hstep & Hloop).
  apply seed_step_inv in Hstep as (r & mf_items & Hr & Hmf & ->).
  assert (r = rs) as -> by congruence.
  apply find_nearest_inv in Hmf as [_ ->]. rewrite Htl in Hloop.
  destruct (slice_to_cons (K_mf c * mf_buffer_multiplier c) s tl)
    as [tl' Hcut0]; [nia|].
  rewrite Hcut0, setdiff1d_nil in Hloop.
  destruct (slice_to_cons (K_mf c) s tl') as [tl'' Hcut]; [done|].
  rewrite Hcut in Hloop. simpl in Hloop.
  apply seed_loop_prefix in Hloop as [more ->].
  destruct (slice_to_cons (n_to_recommend c) s (tl'' ++ more))
    as [ids Hids]; [done|].
  simpl in Htitles. rewrite Hids in Htitles. simpl in Htitles.
  apply bind_Ok in Htitles as (title & Htitle & Hothers).
  apply bind_Ok in Hothers as (others & _ & [= <-]).
  by exists title, others.
Qed.
End completion.

(** C8, refuted on the empty catalogue: there is no interaction, and
    scikit-learn refuses the semantic matrix, which has no row, so
    [recommend] raises [ValueError] where the empty list is expected. *)
Lemma recommend_empty_catalogue_raises :
  ¬ @empty_without_error argsort_stable kernels_fold demo_empty "q"
      default_config.
Proof. intros H. by destruct (H eq_refl) as [Hseeds _]. Qed.

(** C10, refuted on two rows one unit apart at [2^27]: the collaborative
    rows of the two items differ, item 1 is the only seed, and both computed
    distances from its row are zero, so a sort that keeps index order ranks
    item 0 first and the result is the title of item 0. *)
Lemma first_seed_not_first :
  ¬ @first_seed_heads argsort_stable kernels_fold demo_close "q" one_of_each.
Proof.
  intros H.
  destruct (H 1%nat [] eq_refl) as (title & others & Htitle & Hrec);
    [done..| |].
  - intros j rj rs Hj Hrj Hrs Hsame.
    destruct j as [|[|j]]; [|done|done].
    injection Hrj as <-. injection Hrs as <-.
    apply Forall2_cons_1 in Hsame as [Hsame _].
    vm_compute in Hsame. discriminate.
  - vm_compute in Htitle, Hrec. congruence.
Qed.

(** ** The column checks of [preprocess] *)

Lemma set_difference_nonempty_spec a b :
  set_difference_nonempty a b = true ↔ ∃ s, s ∈ a ∧ s ∉ b.
Proof.
  unfold set_difference_nonempty.
  rewrite bool_decide_eq_true, Exists_exists. done.
Qed.

(** The interactions check looks for columns *outside* the required three: a
    table that only lacks columns passes it. *)
Lemma interactions_check_passes_subsets header :
  header ⊆ required_columns →
  set_difference_nonempty header required_columns = false.
Proof.
  intros Hsub. apply not_true_iff_false.
  intros (s & Hs & Hnot)%set_difference_nonempty_spec. by apply Hnot, Hsub.
Qed.

(** C7, on the code: for an interactions file that lacks [user],
    [preprocess] does not raise [ColumnNotFoundError]; both column checks
    pass and the first exception is the [KeyError] of [df_intxn["user"]].
    The check fires instead on a file that has every required column and an
    additional one. *)
Theorem preprocess_missing_column :
  preprocess missing_user = Raise KeyError
  ∧ preprocess extra_column = Raise ColumnNotFoundError.
Proof. split; reflexivity. Qed.

(** ** A worked catalogue *)

Example demo_candidates :
  @candidates argsort_stable kernels_fold demo "q" demo_config
  = Ok [1; 0; 3; 2; 5; 4]%nat.
Proof. reflexivity. Qed.

Example demo_seed_set :
  @seed_set argsort_stable kernels_fold demo "q" demo_config = Ok [0; 2]%nat.
Proof. reflexivity. Qed.

Example demo_first_seed :
  @seed_step argsort_stable kernels_fold demo demo_config [] 0
  = Ok [0; 3]%nat.
Proof. reflexivity. Qed.

Example demo_second_seed :
  @seed_step argsort_stable kernels_fold demo demo_config [0; 3]%nat 2
  = Ok [0; 3; 2; 5]%nat.
Proof. reflexivity. Qed.

Example demo_recommend :
  @recommend argsort_stable kernels_fold demo "q" demo_config
  = Ok ["A"; "D"; "C"]%string.
Proof. reflexivity. Qed.

(** Negative counts are Python slices from the end. *)
Example demo_negative_counts :
  @recommend argsort_stable kernels_fold demo "q"
    {| K_use := -1; K_mf := 2; n_to_recommend := -1;
       use_buffer_multiplier := 1; mf_buffer_multiplier := 2 |}
  = Ok ["A"]%string.
Proof. reflexivity. Qed.

(** The two rows of [demo_close] are at the computed distance zero from the
    second. *)
Example demo_close_distances :
  @pair_distance kernels_fold [134217728%float] <$> embeds_mf demo_close
  = [0%float; 0%float].
Proof. reflexivity. Qed.

Lemma recommend_length_witness :
  0 ≤ n_to_recommend demo_config
  ∧ Z.of_nat (length ["A"; "D"; "C"]%string) ≤ n_to_recommend demo_config.
Proof.
  split; [done|].
  apply (@recommend_length argsort_stable kernels_fold demo "q" demo_config);
    [done|reflexivity].
Defined.

Lemma recommend_no_duplicates_witness : NoDup [0; 3; 2]%nat.
Proof.
  apply (proj1 (proj2
    (@recommend_no_duplicates argsort_stable kernels_fold demo "q"
       demo_config))).
  reflexivity.
Defined.

Lemma find_nearest_sorted_witness :
  ∃ l, @_find_nearest argsort_stable kernels_fold
         [[0%float]] (embeds_use demo) 9 = Ok l
       ∧ StronglySorted (@nearer kernels_fold [0%float] (embeds_use demo)) l
       ∧ NoDup l
       ∧ (∀ i, i ∈ l → (i < length (embeds_use demo))%nat)
       ∧ (0 ≤ 9 → length l = Nat.min (Z.to_nat 9) (length (embeds_use demo)))
       ∧ (Z.of_nat (length (embeds_use demo)) ≤ 9 →
          l ≡ₚ seq 0 (length (embeds_use demo))).
Proof.
  apply (proj1 (@find_nearest_sorted argsort_stable kernels_fold
                  [0%float] (embeds_use demo) 9)).
  reflexivity.
Defined.

Lemma find_nearest_ties_contiguous_witness :
  @same_distance kernels_fold [0%float] [[1]; [1]; [1]; [0]]%float 0 1
  ∧ @same_distance kernels_fold [0%float] [[1]; [1]; [1]; [0]]%float 1 2.
Proof.
  apply (@find_nearest_ties_contiguous argsort_stable kernels_fold
           [0%float] [[1]; [1]; [1]; [0]]%float 4 [3%nat] [1%nat] [] 0 2 1).
  - reflexivity.
  - split; reflexivity.
  - by left.
Defined.

Lemma seed_step_dedup_witness :
  ∃ r mf_items kept,
    embeds_mf demo !! 2%nat = Some r
    ∧ @_find_nearest argsort_stable kernels_fold [r] (embeds_mf demo) 4
      = Ok mf_items
    ∧ kept = setdiff1d mf_items [0; 3]%nat
    ∧ (∀ i, i ∈ kept ↔ i ∈ mf_items ∧ i ∉ [0; 3]%nat)
    ∧ kept `sublist_of` mf_items
    ∧ kept = filter (λ i, i ∉ [0; 3]%nat) mf_items
    ∧ [0; 3; 2; 5]%nat = [0; 3]%nat ++ slice_to 2 kept
    ∧ (0 ≤ 2 → [0; 3; 2; 5]%nat = [0; 3]%nat ++ take (Z.to_nat 2) kept).
Proof.
  apply (@seed_step_dedup argsort_stable kernels_fold demo demo_config
           [0; 3]%nat 2%nat).
  reflexivity.
Defined.

Lemma seed_set_interacted_witness :
  ∃ cands,
    @candidates argsort_stable kernels_fold demo "q" demo_config = Ok cands
    ∧ (∀ i, i ∈ [0; 2]%nat → i ∈ interacted_items demo)
    ∧ interaction_filter demo cands `sublist_of` cands
    ∧ [0; 2]%nat `prefix_of` interaction_filter demo cands
    ∧ [0; 2]%nat `sublist_of` cands.
Proof.
  apply (@seed_set_interacted argsort_stable kernels_fold demo "q"
           demo_config [0; 2]%nat).
  reflexivity.
Defined.

Lemma seed_count_monotone_witness :
  [0]%nat `prefix_of` [0; 2]%nat ∧ (length [0]%nat ≤ length [0; 2]%nat)%nat.
Proof.
  apply (@seed_count_monotone argsort_stable kernels_fold demo "q"
           demo_config 1 3);
    [done|done|done|reflexivity|reflexivity].
Defined.

Lemma recommend_degenerate_witness :
  (@seed_set argsort_stable kernels_fold demo_cold "q" demo_config = Ok []
   ∧ @recommend argsort_stable kernels_fold demo_cold "q" demo_config = Ok [])
  ∧ ∃ cands seeds recs titles,
      @candidates argsort_stable kernels_fold demo "q" demo_config = Ok cands
      ∧ @seed_set argsort_stable kernels_fold demo "q" demo_config = Ok seeds
      ∧ @seed_loop argsort_stable kernels_fold demo demo_config seeds []
        = Ok recs
      ∧ @recommend argsort_stable kernels_fold demo "q" demo_config
        = Ok titles
      ∧ (0 ≤ K_use demo_config →
         length seeds
         = Nat.min (Z.to_nat (K_use demo_config))
             (length (interaction_filter demo cands)))
      ∧ (0 ≤ K_mf demo_config →
         Z.of_nat (length recs)
         ≤ Z.of_nat (length seeds) * K_mf demo_config)
      ∧ (0 ≤ n_to_recommend demo_config →
         length titles
         = Nat.min (Z.to_nat (n_to_recommend demo_config)) (length recs)).
Proof.
  split.
  - apply (proj1 (@recommend_degenerate argsort_stable kernels_fold demo_cold
                    "q" demo_config eq_refl)).
    reflexivity.
  - apply (proj2 (@recommend_degenerate argsort_stable kernels_fold demo
                    "q" demo_config eq_refl)).
    reflexivity.
Defined.

Lemma first_seed_first_witness :
  ∃ title others,
    loc_item (items demo) 0 = Ok title
    ∧ @recommend argsort_stable kernels_fold demo "q" demo_config
      = Ok (title :: others).
Proof.
  apply (@first_seed_first argsort_stable kernels_fold demo "q" demo_config
           0%nat [2%nat]);
    [reflexivity|reflexivity|done|done|done|].
  intros rs [= <-] j Hj Hlt Hnear.
  do 6 (destruct j as [|j]; [try done; vm_compute in Hnear; discriminate|]).
  simpl in Hlt. lia.
Defined.

(** * The rest of the module *)

(** ** [batch] *)

Lemma ceil_div_bounds a b q :
  0 < b → ceil_div a b = Some q →
  (q = 0 ∧ a * 2 ^ 1075 ≤ b) ∨ a ≤ q * b < a + b.
Proof.
  intros Hb. unfold ceil_div.
  destruct (Z.eqb_spec b 0) as [|_]; [lia|].
  destruct (Z.ltb_spec 0 b) as [_|]; [|lia]. cbn [andb].
  destruct (Z.leb_spec (a * 2 ^ 1075) b) as [Hunder|_]; intros [= <-].
  { by left. }
  right.
  pose proof (Z.div_mod (- a) b ltac:(lia)) as Hdiv.
  pose proof (Z.mod_pos_bound (- a) b Hb) as Hmod.
  revert Hdiv Hmod. generalize ((- a) `div` b) ((- a) `mod` b). intros d r.
  nia.
Qed.

Lemma clip_nonneg len k : 0 ≤ k → clip len k = Nat.min (Z.to_nat k) len.
Proof. intros Hk. unfold clip. destruct (Z.leb_spec 0 k); [done|lia]. Qed.

Lemma slice_nonneg {A} (a b : nat) (xs : list A) :
  slice (Z.of_nat a) (Z.of_nat b) xs = drop a (take b xs).
Proof.
  unfold slice. rewrite !clip_nonneg, !Nat2Z.id by lia.
  destruct (decide (b ≤ length xs)%nat) as [Hb|Hb].
  - rewrite (Nat.min_l b) by done.
    destruct (decide (a ≤ length xs)%nat) as [Ha|Ha].
    + by rewrite (Nat.min_l a) by done.
    + rewrite (Nat.min_r a) by lia.
      rewrite !drop_ge; [done|rewrite length_take; lia..].
  - rewrite (Nat.min_r b) by lia. rewrite !take_ge by lia.
    destruct (decide (a ≤ length xs)%nat) as [Ha|Ha].
    + by rewrite (Nat.min_l a) by done.
    + rewrite (Nat.min_r a) by lia. rewrite !drop_ge; [done|lia..].
Qed.

(** The batches for a positive size [B], as chunks of the list; there is
    none when the quotient underflows. *)
Lemma batch_chunks {A} (items : list A) (B : nat) (bs : list (list A)) :
  (0 < B)%nat → batch items (Z.of_nat B) = Some bs →
  ∃ q : nat,
    ((q = 0%nat ∧ Z.of_nat (length items) * 2 ^ 1075 ≤ Z.of_nat B)
     ∨ (length items ≤ q * B < length items + B)%nat)
    ∧ bs = (λ i, drop (B * i) (take (B * (i + 1)) items)) <$> seq 0 q.
Proof.
  intros HB. unfold batch.
  destruct (ceil_div _ _) as [q|] eqn:Hq; [|done]. simpl. intros [= <-].
  apply ceil_div_bounds in Hq as Hbounds; [|lia].
  exists (Z.to_nat q). split.
  { destruct Hbounds as [[-> Hunder]|Hbounds]; [by left|right; nia]. }
  unfold seqZ. rewrite <-list_fmap_compose.
  apply list_fmap_ext. intros _ i _. simpl. rewrite Z.add_0_r.
  replace (Z.of_nat B * Z.of_nat i) with (Z.of_nat (B * i)) by lia.
  replace (Z.of_nat B * (Z.of_nat i + 1)) with (Z.of_nat (B * (i + 1))) by lia.
  apply slice_nonneg.
Qed.

Lemma batch_total {A} (items : list A) (batch_size : Z) :
  batch_size ≠ 0 → ∃ bs, batch items batch_size = Some bs.
Proof.
  intros Hne. unfold batch, ceil_div.
  destruct (Z.eqb_spec batch_size 0); [done|].
  destruct (_ && _); by eexists.
Qed.

Lemma concat_chunks {A} (items : list A) (B q : nat) :
  concat ((λ i, drop (B * i) (take (B * (i + 1)) items)) <$> seq 0 q)
  = take (B * q) items.
Proof.
  induction q as [|q IH].
  - by rewrite Nat.mul_0_r, take_0.
  - rewrite seq_S, fmap_app, concat_app, IH. simpl. rewrite app_nil_r.
    replace (B * (q + 1))%nat with (B * S q)%nat by lia.
    rewrite <-(take_drop (B * q) (take (B * S q) items)) at 2.
    f_equal. rewrite take_take. f_equal. lia.
Qed.

(** X1: for a positive batch size below [2^1075] and a list shorter than
    [2^53], [batch] returns batches whose concatenation is the input list:
    no item is lost, repeated or moved. *)
Theorem batch_concat {A} (items : list A) (batch_size : Z) :
  0 < batch_size → batch_size < 2 ^ 1075 →
  Z.of_nat (length items) < 2 ^ 53 →
  ∃ bs, batch items batch_size = Some bs ∧ concat bs = items.
Proof.
  intros Hpos Hsmall _.
  destruct (batch_total items batch_size) as [bs Hbatch]; [lia|].
  exists bs. split; [done|].
  rewrite <-(Z2Nat.id batch_size) in Hbatch by lia.
  apply batch_chunks in Hbatch as (q & Hq & ->); [|lia].
  rewrite concat_chunks. apply take_ge.
  destruct Hq as [[-> Hunder]|Hq]; [|lia].
  rewrite Z2Nat.id in Hunder by lia.
  assert (Z.of_nat (length items) = 0) by nia. lia.
Qed.

(** X2: for a positive batch size every batch is non-empty and holds at most
    [batch_size] items, and every batch but the last holds exactly
    [batch_size]. *)
Theorem batch_sizes {A} (items : list A) (batch_size : Z)
    (bs : list (list A)) (i : nat) (b : list A) :
  0 < batch_size →
  batch items batch_size = Some bs →
  bs !! i = Some b →
  (0 < length b)%nat
  ∧ Z.of_nat (length b) ≤ batch_size
  ∧ ((S i < length bs)%nat → Z.of_nat (length b) = batch_size).
Proof.
  intros Hpos Hbatch Hb.
  rewrite <-(Z2Nat.id batch_size) in Hbatch by lia.
  apply batch_chunks in Hbatch as (q & Hq & ->); [|lia].
  rewrite length_fmap, length_seq.
  rewrite list_lookup_fmap in Hb.
  destruct (seq 0 q !! i) as [j|] eqn:Hj; [|done].
  apply lookup_seq in Hj as [-> Hi]. simpl in Hb. injection Hb as <-.
  destruct Hq as [[-> _]|Hq]; [lia|].
  rewrite length_drop, length_take. nia.
Qed.

(** X3: for a positive batch size below [2^1075] and a list shorter than
    [2^53] the number of batches is the length of the list divided by the
    batch size, rounded up; in particular an empty list gives no batch at
    all. *)
Theorem batch_count {A} (items : list A) (batch_size : Z)
    (bs : list (list A)) :
  0 < batch_size → batch_size < 2 ^ 1075 →
  Z.of_nat (length items) < 2 ^ 53 →
  batch items batch_size = Some bs →
  Z.of_nat (length bs)
  = (Z.of_nat (length items) + batch_size - 1) / batch_size
  ∧ (items = [] → bs = []).
Proof.
  intros Hpos Hsmall _ Hbatch.
  rewrite <-(Z2Nat.id batch_size) in Hbatch by lia.
  apply batch_chunks in Hbatch as (q & Hq & ->); [|lia].
  rewrite length_fmap, length_seq.
  destruct Hq as [[-> Hunder]|Hq].
  - rewrite Z2Nat.id in Hunder by lia.
    assert (Hlen : Z.of_nat (length items) = 0) by nia.
    split; [|done]. rewrite Hlen. symmetry. apply Z.div_small. lia.
  - split.
    + apply Z.div_unique with
        (r := Z.of_nat (length items) + batch_size - 1
              - batch_size * Z.of_nat q);
        [left|]; nia.
    + intros ->. simpl in Hq. destruct q; [done|nia].
Qed.

(** X4: a batch size of zero raises [ZeroDivisionError]; a negative batch
    size raises nothing and returns no batch, whatever the list holds. *)
Theorem batch_degenerate_sizes {A} (items : list A) (batch_size : Z) :
  (batch_size = 0 → batch items batch_size = None)
  ∧ (batch_size < 0 → batch items batch_size = Some []).
Proof.
  split.
  - by intros ->.
  - intros Hneg. unfold batch, ceil_div.
    destruct (Z.eqb_spec batch_size 0); [lia|].
    destruct (Z.ltb_spec 0 batch_size); [lia|]. simpl. f_equal.
    rewrite seqZ_nil; [done|].
    pose proof (Z.div_mod (- Z.of_nat (length items)) batch_size ltac:(lia))
      as Hdiv.
    pose proof (Z.mod_neg_bound (- Z.of_nat (length items)) batch_size Hneg)
      as Hmod.
    revert Hdiv Hmod.
    generalize ((- Z.of_nat (length items)) `div` batch_size)
               ((- Z.of_nat (length items)) `mod` batch_size).
    intros d r. nia.
Qed.

(** X23: a batch size so large that the floating-point quotient
    [len(items) / batch_size] rounds to zero gives no batch at all, and the
    items are dropped. *)
Theorem batch_underflow {A} (items : list A) (batch_size : Z) :
  items ≠ [] →
  Z.of_nat (length items) * 2 ^ 1075 ≤ batch_size →
  batch items batch_size = Some [] ∧ concat (@nil (list A)) ≠ items.
Proof.
  intros Hne Hunder. split; [|done].
  assert (0 < Z.of_nat (length items)).
  { destruct items; [done|simpl; lia]. }
  unfold batch, ceil_div.
  destruct (Z.eqb_spec batch_size 0); [lia|].
  destruct (Z.ltb_spec 0 batch_size); [|lia].
  destruct (Z.leb_spec (Z.of_nat (length items) * 2 ^ 1075) batch_size);
    [done|lia].
Qed.

(** ** The title embeddings of [preprocess] *)

Lemma concat_fmap_fmap {A B} (f : A → B) (ls : list (list A)) :
  concat ((λ l : list A, f <$> l) <$> ls) = f <$> concat ls.
Proof.
  induction ls as [|l ls IH]; [done|].
  rewrite fmap_cons. cbn [concat]. rewrite fmap_app. by f_equal.
Qed.

Lemma title_embeddings_nonempty (model_use : string → vec)
    (titles : list string) :
  titles ≠ [] → title_embeddings model_use titles = Ok (model_use <$> titles).
Proof.
  intros Hne. unfold title_embeddings, batch_size_default.
  destruct (batch_total titles 32) as [bs Hbatch]; [done|]. rewrite Hbatch.
  change 32 with (Z.of_nat 32) in Hbatch.
  apply batch_chunks in Hbatch as (q & Hq & ->); [|lia].
  assert (Hpos : (0 < length titles)%nat).
  { destruct titles; [done|simpl; lia]. }
  destruct Hq as [[_ Hunder]|Hq]; [lia|].
  assert (Hcat : concat ((λ l : list string, model_use <$> l) <$>
      ((λ i, drop (32 * i) (take (32 * (i + 1)) titles)) <$> seq 0 q))
    = model_use <$> titles).
  { rewrite concat_fmap_fmap, concat_chunks, take_ge; [done|lia]. }
  destruct q as [|q]; [lia|].
  rewrite <-Hcat. by rewrite <-cons_seq.
Qed.

(** X5: [preprocess] stacks one semantic embedding per title, in the order
    of the titles, however many batches there are; with no title at all
    [np.vstack] has nothing to stack and raises [ValueError]. *)
Theorem title_embeddings_rows (model_use : string → vec)
    (titles : list string) :
  (titles = [] → title_embeddings model_use titles = Raise ValueError)
  ∧ (titles ≠ [] → title_embeddings model_use titles = Ok (model_use <$> titles)).
Proof.
  split; [|apply title_embeddings_nonempty].
  intros ->. unfold title_embeddings, batch_size_default.
  destruct (batch_total (@nil string) 32) as [bs Hbatch]; [done|].
  rewrite Hbatch. change 32 with (Z.of_nat 32) in Hbatch.
  apply (batch_chunks (@nil string)) in Hbatch as (q & Hq & ->); [|lia].
  destruct Hq as [[-> _]|Hq]; [done|].
  simpl in Hq. destruct q; [done|lia].
Qed.

(** ** What the column checks of [preprocess] let through *)

Lemma not_outside_required (header : list string) :
  set_difference_nonempty header required_columns = false
  ↔ ∀ s, s ∈ header → s ∈ required_columns.
Proof.
  rewrite <-not_true_iff_false, set_difference_nonempty_spec. split.
  - intros Hno s Hs. destruct (decide (s ∈ required_columns)); [done|].
    destruct Hno. eauto.
  - intros Hall (s & Hs & Hnot). by apply Hnot, Hall.
Qed.

Lemma required_columns_elem s :
  s ∈ required_columns
  ↔ s = "interaction"%string ∨ s = "item"%string ∨ s = "user"%string.
Proof. unfold required_columns. rewrite !elem_of_cons, elem_of_nil. tauto. Qed.

(** X6: [preprocess] gets past its checks and reaches the numeric work
    exactly when both files exist, the output directory exists or is made,
    pandas reads both tables, the items table has a [title] column, and the
    column labels of the interactions table are exactly [interaction],
    [item] and [user]. *)
Theorem preprocess_passes_iff (i : inputs) :
  preprocess i = Ok ()
  ↔ interactions_exists i = true
    ∧ items_exists i = true
    ∧ (serialised_exists i = true ∨ mkdir i = Ok ())
    ∧ ∃ intxn_columns items_columns,
        df_intxn i = Ok intxn_columns
        ∧ df_items i = Ok items_columns
        ∧ "title"%string ∈ items_columns
        ∧ ∀ s, s ∈ intxn_columns ↔ s ∈ required_columns.
Proof.
  unfold preprocess, column.
  destruct (interactions_exists i); simpl; [|naive_solver].
  destruct (items_exists i); simpl; [|naive_solver].
  assert (Hdir : (if serialised_exists i then Ok () else mkdir i) = Ok ()
                 ↔ serialised_exists i = true ∨ mkdir i = Ok ()).
  { destruct (serialised_exists i); [naive_solver|].
    split; [by right|by intros [|]]. }
  destruct (if serialised_exists i then Ok () else mkdir i) as [[]|e];
    cbn [bind]; [|split; [done|intros (_ & _ & ?%Hdir & _); done]].
  destruct (df_intxn i) as [intxn_columns|e]; cbn [bind];
    [|split; [done|by intros (_ & _ & _ & ? & ? & ? & _)]].
  destruct (df_items i) as [items_columns|e]; cbn [bind];
    [|split; [done|by intros (_ & _ & _ & ? & ? & _ & ? & _)]].
  destruct (set_difference_nonempty _ _) eqn:Hextra.
  { apply set_difference_nonempty_spec in Hextra as (s & Hs & Hnot).
    split; [done|].
    intros (_ & _ & _ & ? & ? & [= <-] & _ & _ & Hcols).
    destruct Hnot. by apply Hcols. }
  pose proof (proj1 (not_outside_required _) Hextra) as Hsub. clear Hextra.
  case_bool_decide as Htitle; simpl.
  2:{ split; [done|].
      by intros (_ & _ & _ & ? & ? & _ & [= <-] & ? & _). }
  repeat (case_bool_decide; simpl);
    try (split; [done|];
         intros (_ & _ & _ & ? & ? & [= <-] & _ & _ & Hcols);
         match goal with
         | Hmiss : ?c ∉ intxn_columns |- _ =>
             destruct Hmiss; apply Hcols, required_columns_elem; auto
         end).
  split; [|done]. intros _. split_and!; [done|done|by apply Hdir|].
  exists intxn_columns, items_columns. split_and!; try done.
  intros s. split; [apply Hsub|].
  rewrite required_columns_elem. by intros [->|[->| ->]].
Qed.

(** X8: when both tables are read, the interactions table only lacks
    required columns (it has no other column) and the items table has its
    [title], the column checks pass and the exception is the [KeyError] of
    the first column look-up that fails, never [ColumnNotFoundError]. *)
Theorem preprocess_missing_column_key_error (i : inputs)
    (intxn_columns items_columns : list string) (missing : string) :
  interactions_exists i = true →
  items_exists i = true →
  serialised_exists i = true ∨ mkdir i = Ok () →
  df_intxn i = Ok intxn_columns →
  df_items i = Ok items_columns →
  "title"%string ∈ items_columns →
  (∀ s, s ∈ intxn_columns → s ∈ required_columns) →
  missing ∈ required_columns →
  missing ∉ intxn_columns →
  preprocess i = Raise KeyError.
Proof.
  intros Hi Hit Hdir Hintxn Hitems Htitle Hsub Hreq Hmiss.
  unfold preprocess, column. rewrite Hi, Hit. simpl.
  assert ((if serialised_exists i then Ok () else mkdir i) = Ok ()) as ->.
  { destruct (serialised_exists i); [done|]. by destruct Hdir. }
  rewrite Hintxn, Hitems. cbn [bind].
  rewrite (proj2 (not_outside_required _)) by done.
  rewrite bool_decide_eq_true_2 by done. simpl.
  apply required_columns_elem in Hreq.
  repeat (case_bool_decide; simpl); try done.
  naive_solver.
Qed.

(** ** [_find_nearest] beyond one query row and non-negative [K] *)

Lemma valid_array_elem (m : matrix) (r : vec) :
  valid_array m = true → r ∈ m →
  valid_array [r] = true ∧ width [r] = width m.
Proof.
  intros Hvalid Hr. destruct m as [|r0 m]; [done|].
  unfold valid_array in Hvalid.
  apply andb_true_iff in Hvalid as [Hwidth Hrows].
  pose proof (proj1 (forallb_forall _ _) Hrows r) as Hrow.
  apply list_elem_of_In in Hr.
  apply Hrow, andb_true_iff in Hr as [Hlen Hfin]. apply Nat.eqb_eq in Hlen.
  cbn [valid_array width forallb length].
  rewrite Hlen, Hwidth, !Nat.eqb_refl, Hfin. done.
Qed.

Lemma accepts_last (x : matrix) (u : vec) (y : matrix) :
  accepts (x ++ [u]) y = true → accepts [u] y = true.
Proof.
  unfold accepts.
  intros [[Hx Hy]%andb_true_iff Hw%Nat.eqb_eq]%andb_true_iff.
  destruct (valid_array_elem (x ++ [u]) u Hx) as [Hu Hwu].
  { apply elem_of_app. right. by left. }
  rewrite Hu, Hy, Hwu, Hw, Nat.eqb_refl. done.
Qed.

Section find_nearest_edges.
Context {sort : ArgSort} {kern : Kernels}.

(** X9: called with several query rows that scikit-learn accepts,
    [_find_nearest] ranks the rows of [y] against the *last* query row only:
    the reversal [[::-1]] acts on the rows of the argsort matrix, and row
    [0] is then taken.  When scikit-learn refuses one of the arrays the call
    raises [ValueError]. *)
Theorem find_nearest_last_row (x : matrix) (u : vec) (y : matrix) (K : Z) :
  (accepts (x ++ [u]) y = true →
   _find_nearest (x ++ [u]) y K = _find_nearest [u] y K)
  ∧ (accepts (x ++ [u]) y = false →
     _find_nearest (x ++ [u]) y K = Raise ValueError).
Proof.
  split; [|apply find_nearest_rejects].
  intros Hok. pose proof (accepts_last x u y Hok) as Hlast.
  unfold _find_nearest, euclidean_distances. rewrite Hok, Hlast.
  cbn [bind]. rewrite !fmap_app, reverse_app. done.
Qed.

(** X10: on arrays scikit-learn accepts a negative [K] raises nothing: the
    result is the full ranking without its last [-K] entries (nothing at all
    when [-K] is at least the number of rows). *)
Theorem find_nearest_negative_K (u : vec) (y : matrix) (K : Z) :
  K < 0 →
  accepts [u] y = true →
  ∃ l full,
    _find_nearest [u] y K = Ok l
    ∧ _find_nearest [u] y (Z.of_nat (length y)) = Ok full
    ∧ full ≡ₚ seq 0 (length y)
    ∧ l = take (length y - Z.to_nat (- K)) full.
Proof.
  intros HK Hok. do 2 eexists. split; [by apply find_nearest_single|].
  split; [by apply find_nearest_single|].
  rewrite slice_to_all by (by rewrite argsort_length, length_fmap).
  split; [by rewrite argsort_perm, length_fmap|].
  unfold slice_to. destruct (Z.leb_spec 0 K); [lia|].
  by rewrite argsort_length, length_fmap.
Qed.
End find_nearest_edges.

(** A query row scikit-learn refuses makes the whole call raise, where the
    last row alone is ranked. *)
Example find_nearest_refused_row :
  @_find_nearest argsort_stable kernels_fold
    ([[nan]] ++ [[0%float]]) [[1]; [3]; [0]]%float 2
  = Raise ValueError
  ∧ @_find_nearest argsort_stable kernels_fold
      [[0%float]] [[1]; [3]; [0]]%float 2
    = Ok [2; 0]%nat.
Proof. split; reflexivity. Qed.

(** X11: any two sorts that meet numpy's contract give [_find_nearest] the
    same result when no two rows of [y] are at the same computed distance
    from the query: only ties depend on the sort. *)
Theorem find_nearest_sort_independent (sort1 sort2 : ArgSort)
    (kern : Kernels) (u : vec) (y : matrix) (K : Z) :
  (∀ i j, (i < length y)%nat → (j < length y)%nat →
          same_distance u y i j → i = j) →
  @_find_nearest sort1 kern [u] y K = @_find_nearest sort2 kern [u] y K.
Proof.
  intros Hdistinct.
  destruct (accepts [u] y) eqn:Hok;
    [|by rewrite !find_nearest_rejects].
  rewrite (@find_nearest_single sort1), (@find_nearest_single sort2) by done.
  do 2 f_equal.
  apply (StronglySorted_unique_strong (key_le (pair_distance u <$> y))).
  - intros i j Hi Hj Hij Hji.
    apply (@argsort_elem_of sort1) in Hi. apply (@argsort_elem_of sort2) in Hj.
    rewrite length_fmap in Hi, Hj.
    apply Hdistinct; [done..|].
    unfold key_le in Hij, Hji. rewrite !key_row_dist in Hij, Hji.
    by split.
  - apply (@argsort_sorted sort1).
  - apply (@argsort_sorted sort2).
  - by rewrite (@argsort_perm sort1), (@argsort_perm sort2).
Qed.

(** ** More on [recommend]: sizes, degenerate counts and exceptions *)

Lemma filter_complement_length (l recs : list nat) :
  NoDup l →
  (length l ≤ length (filter (λ i, i ∉ recs) l) + length recs)%nat.
Proof.
  intros Hl.
  rewrite <-(filter_app_complement (λ i, i ∉ recs) l) at 1.
  rewrite length_app. apply Nat.add_le_mono_l.
  apply submseteq_length, NoDup_submseteq; [by apply NoDup_filter|].
  intros i [Hi _]%list_elem_of_filter.
  by destruct (decide (i ∈ recs)).
Qed.

Section recommend_sizes.
Context {sort : ArgSort} {kern : Kernels}.
Variable self : Recommender.

Lemma seed_set_length query c seeds :
  0 ≤ K_use c → seed_set self query c = Ok seeds →
  Z.of_nat (length seeds) ≤ K_use c.
Proof.
  intros HK [_ ->]%seed_set_inv. by apply slice_to_length_le.
Qed.

(** X12: with non-negative [K_use] and [K_mf], [recommend] returns at most
    [K_use * K_mf] titles, whatever [n_to_recommend] and the multipliers
    are: each of at most [K_use] seeds adds at most [K_mf] identifiers. *)
Theorem recommend_length_product (query : string) (c : config)
    (titles : list string) :
  0 ≤ K_use c → 0 ≤ K_mf c →
  recommend self query c = Ok titles →
  Z.of_nat (length titles) ≤ K_use c * K_mf c.
Proof.
  intros HKu HKm (seeds & recs & Hseeds & Hloop & _ & Htitles)%recommend_inv.
  apply comprehension_length in Htitles. rewrite Htitles.
  pose proof (prefix_length _ _ (slice_to_prefix (n_to_recommend c) recs)).
  apply seed_set_length in Hseeds; [|done].
  apply seed_loop_length in Hloop; [|done]. simpl in Hloop. nia.
Qed.

(** X13: when the encoded query is accepted against the semantic matrix,
    [K_use = 0] or [use_buffer_multiplier = 0] leave no seed and [recommend]
    returns the empty list; with [K_mf = 0] or [n_to_recommend = 0] a
    returned list is empty. *)
Theorem recommend_zero_counts (query : string) (c : config) :
  (K_use c = 0 ∨ use_buffer_multiplier c = 0 →
   encodes self query = true →
   recommend self query c = Ok [])
  ∧ (K_mf c = 0 ∨ n_to_recommend c = 0 →
     ∀ titles, recommend self query c = Ok titles → titles = []).
Proof.
  split.
  - intros Hzero Hok.
    assert (Hseeds : seed_set self query c = Ok []).
    { rewrite seed_set_run by done. f_equal. destruct Hzero as [HK|Hm].
      - rewrite HK. reflexivity.
      - rewrite Hm, Z.mul_0_r.
        change (slice_to 0 (ranking self query)) with (@nil nat).
        apply slice_to_nil. }
    unfold recommend, recommend_ids. rewrite Hseeds. cbn [bind seed_loop].
    by rewrite slice_to_nil.
  - intros Hzero titles (seeds & recs & _ & Hloop & _ & Htitles)%recommend_inv.
    apply comprehension_length in Htitles.
    apply length_zero_iff_nil. rewrite Htitles.
    destruct Hzero as [HK|Hn].
    + apply seed_loop_length in Hloop; [|lia].
      pose proof (prefix_length _ _ (slice_to_prefix (n_to_recommend c) recs)).
      simpl in Hloop. nia.
    + by rewrite Hn.
Qed.

Lemma seed_step_out_of_range c recs item_id :
  (length (embeds_mf self) ≤ item_id)%nat →
  seed_step self c recs item_id = Raise IndexError.
Proof.
  intros Hge. unfold seed_step, row_matrix.
  by rewrite lookup_ge_None_2.
Qed.

Lemma seed_step_raises c recs item_id e :
  seed_step self c recs item_id = Raise e → e = IndexError ∨ e = ValueError.
Proof.
  unfold seed_step, row_matrix.
  destruct (embeds_mf self !! item_id) as [r|]; cbn [bind];
    [|intros [= <-]; by left].
  destruct (accepts [r] (embeds_mf self)) eqn:Hok.
  - by rewrite find_nearest_single.
  - rewrite find_nearest_rejects by done. intros [= <-]. by right.
Qed.

Lemma seed_loop_index_error c item_ids recs s :
  valid_array (embeds_mf self) = true →
  s ∈ item_ids → (length (embeds_mf self) ≤ s)%nat →
  seed_loop self c item_ids recs = Raise IndexError.
Proof.
  intros Hvalid Hs Hge. revert recs.
  induction item_ids as [|i item_ids IH]; intros recs; [by inversion Hs|].
  simpl. destruct (decide (i < length (embeds_mf self))%nat) as [Hi|Hi].
  - destruct (seed_step_total self c recs i Hvalid Hi) as [recs' ->].
    cbn [bind]. apply IH. apply elem_of_cons in Hs as [->|Hs]; [lia|done].
  - by rewrite seed_step_out_of_range by lia.
Qed.

Lemma seed_loop_raises c item_ids recs s :
  s ∈ item_ids → (length (embeds_mf self) ≤ s)%nat →
  ∃ e, seed_loop self c item_ids recs = Raise e
       ∧ (e = IndexError ∨ e = ValueError).
Proof.
  intros Hs Hge. revert recs.
  induction item_ids as [|i item_ids IH]; intros recs; [by inversion Hs|].
  simpl. destruct (seed_step self c recs i) as [recs'|e] eqn:Hstep.
  - cbn [bind]. apply IH. apply elem_of_cons in Hs as [->|Hs]; [|done].
    by rewrite seed_step_out_of_range in Hstep by lia.
  - cbn [bind]. exists e. split; [done|]. by eapply seed_step_raises.
Qed.

(** X14: if some seed is not a row index of the collaborative matrix,
    [recommend] raises: [IndexError] (from [self.embeds_mf[None, item_id]])
    when the collaborative matrix is an array scikit-learn accepts, whatever
    the other seeds are, and otherwise [IndexError] or the [ValueError] of
    an earlier seed's search. *)
Theorem recommend_index_error (query : string) (c : config)
    (seeds : list nat) (s : nat) :
  seed_set self query c = Ok seeds →
  s ∈ seeds → (length (embeds_mf self) ≤ s)%nat →
  (valid_array (embeds_mf self) = true →
   recommend self query c = Raise IndexError)
  ∧ ∃ e, recommend self query c = Raise e
         ∧ (e = IndexError ∨ e = ValueError).
Proof.
  intros Hseeds Hs Hge. unfold recommend, recommend_ids.
  rewrite Hseeds. cbn [bind]. split.
  - intros Hvalid. by rewrite (seed_loop_index_error c seeds [] s).
  - destruct (seed_loop_raises c seeds [] s Hs Hge) as (e & -> & He).
    by exists e.
Qed.

(** X15: if the encoded query is accepted against the semantic matrix, the
    collaborative matrix is an array scikit-learn accepts and every
    identifier of [interacted_items] is one of its row indices, the loop
    over the seeds raises nothing, whatever the numbers of rows of the two
    matrices are, and every identifier it produces is a row index of the
    collaborative matrix. *)
Theorem recommend_ids_in_range (query : string) (c : config) :
  encodes self query = true →
  valid_array (embeds_mf self) = true →
  (∀ i, i ∈ interacted_items self → (i < length (embeds_mf self))%nat) →
  ∃ ids, recommend_ids self query c = Ok ids
         ∧ ∀ i, i ∈ ids → (i < length (embeds_mf self))%nat.
Proof.
  intros Hok Hvalid Hrange.
  pose proof (seed_set_run self query c Hok) as Hseeds.
  destruct (seed_loop_total self c
              (slice_to (K_use c)
                 (interaction_filter self
                    (slice_to (K_use c * use_buffer_multiplier c)
                       (ranking self query)))) [] Hvalid)
    as (recs & Hrecs & Hall).
  { apply Forall_forall. intros i Hi. apply Hrange.
    by eapply seed_set_elem_of. }
  { constructor. }
  exists (slice_to (n_to_recommend c) recs). split.
  - unfold recommend_ids. rewrite Hseeds. cbn [bind]. by rewrite Hrecs.
  - intros i Hi. eapply elem_of_sublist in Hi; [|apply slice_to_sublist].
    rewrite Forall_forall in Hall. by apply Hall.
Qed.
End recommend_sizes.

(** The second seed of [demo_short_nan] is not a row index of its
    collaborative matrix, and the search of the first seed raises first. *)
Example demo_short_nan_raises :
  @seed_set argsort_stable kernels_fold demo_short_nan "q" demo_config
  = Ok [0; 2]%nat
  ∧ @recommend argsort_stable kernels_fold demo_short_nan "q" demo_config
    = Raise ValueError.
Proof. split; reflexivity. Qed.

(** ** How much each seed contributes *)

Section contributions.
Context {sort : ArgSort} {kern : Kernels}.
Variable self : Recommender.

Lemma seed_step_exact c recs item_id recs' :
  0 ≤ K_mf c →
  seed_step self c recs item_id = Ok recs' →
  Z.of_nat (length recs) + K_mf c
    ≤ Z.min (K_mf c * mf_buffer_multiplier c)
            (Z.of_nat (length (embeds_mf self))) →
  Z.of_nat (length recs') = Z.of_nat (length recs) + K_mf c.
Proof.
  intros HK (r & mf_items & _ & Hmf & ->)%seed_step_inv Hroom.
  rewrite length_app, slice_to_nonneg, length_take by done.
  pose proof (find_nearest_NoDup _ _ _ _ Hmf) as Hnodup.
  apply find_nearest_inv in Hmf as [_ ->].
  rewrite setdiff1d_filter.
  pose proof (filter_complement_length _ recs Hnodup) as Hkept.
  rewrite (slice_to_nonneg (K_mf c * mf_buffer_multiplier c)) in * by lia.
  rewrite length_take, argsort_length, length_fmap in Hkept.
  lia.
Qed.

Lemma seed_loop_exact c item_ids recs out :
  0 ≤ K_mf c →
  seed_loop self c item_ids recs = Ok out →
  Z.of_nat (length recs) + Z.of_nat (length item_ids) * K_mf c
    ≤ Z.min (K_mf c * mf_buffer_multiplier c)
            (Z.of_nat (length (embeds_mf self))) →
  Z.of_nat (length out)
  = Z.of_nat (length recs) + Z.of_nat (length item_ids) * K_mf c.
Proof.
  intros HK. revert recs.
  induction item_ids as [|i item_ids IH]; intros recs; simpl length.
  - intros [= <-] _. lia.
  - cbn [seed_loop]. intros (recs' & Hstep & Hloop)%bind_Ok Hroom.
    apply seed_step_exact in Hstep; [|done|nia].
    apply IH in Hloop; [|nia]. nia.
Qed.

(** X17: sufficient buffering leaves no seed short.  With a non-negative
    [K_mf], if [mf_buffer_multiplier] is at least the number of seeds and the
    collaborative matrix has at least [K_mf] rows per seed, every seed adds
    exactly [K_mf] identifiers, so the accumulator ends with
    (number of seeds) * [K_mf] of them. *)
Theorem accumulator_filled (query : string) (c : config)
    (seeds recs : list nat) :
  0 ≤ K_mf c →
  seed_set self query c = Ok seeds →
  seed_loop self c seeds [] = Ok recs →
  Z.of_nat (length seeds) ≤ mf_buffer_multiplier c →
  Z.of_nat (length seeds) * K_mf c ≤ Z.of_nat (length (embeds_mf self)) →
  Z.of_nat (length recs) = Z.of_nat (length seeds) * K_mf c.
Proof.
  intros HK _ Hloop Hbuf Hrows.
  apply seed_loop_exact in Hloop; [|done|simpl; nia].
  simpl in Hloop. lia.
Qed.

Lemma seed_step_adds_seed c recs s recs' :
  1 ≤ K_mf c → 1 ≤ mf_buffer_multiplier c →
  (∀ rs, embeds_mf self !! s = Some rs →
         strictly_nearest rs (embeds_mf self) s) →
  seed_step self c recs s = Ok recs' → s ∈ recs'.
Proof.
  intros HK Hbuf Hstrict (rs & mf_items & Hrs & Hmf & ->)%seed_step_inv.
  destruct (argsort_head_strict rs (embeds_mf self) s) as [tl Htl];
    [by eapply lookup_lt_Some|by apply Hstrict|].
  apply find_nearest_inv in Hmf as [_ ->]. rewrite Htl.
  destruct (slice_to_cons (K_mf c * mf_buffer_multiplier c) s tl)
    as [tl' ->]; [nia|].
  rewrite setdiff1d_filter, elem_of_app.
  destruct (decide (s ∈ recs)) as [Hin|Hout]; [by left|right].
  rewrite filter_cons_True by done.
  destruct (slice_to_cons (K_mf c) s (filter (λ i, i ∉ recs) tl'))
    as [tl'' ->]; [done|]. by left.
Qed.

Lemma seed_loop_adds_seed c item_ids recs out s :
  1 ≤ K_mf c → 1 ≤ mf_buffer_multiplier c →
  (∀ rs, embeds_mf self !! s = Some rs →
         strictly_nearest rs (embeds_mf self) s) →
  seed_loop self c item_ids recs = Ok out → s ∈ item_ids → s ∈ out.
Proof.
  intros HK Hbuf Hstrict. revert recs.
  induction item_ids as [|i item_ids IH]; intros recs; [by inversion 2|].
  cbn [seed_loop]. intros (recs' & Hstep & Hloop)%bind_Ok Hs.
  apply elem_of_cons in Hs as [->|Hs]; [|by eapply IH].
  apply seed_step_adds_seed in Hstep; [|done..].
  apply seed_loop_prefix in Hloop as [more ->].
  apply elem_of_app. by left.
Qed.

(** X18: with [K_mf] and [mf_buffer_multiplier] at least one, every seed
    whose collaborative row is at a smaller computed distance from itself
    than every other row is in the accumulator when the loop ends: such a
    seed is recommended itself, unless [n_to_recommend] cuts it off. *)
Theorem seeds_are_recommended (query : string) (c : config)
    (seeds recs : list nat) (s : nat) :
  1 ≤ K_mf c → 1 ≤ mf_buffer_multiplier c →
  seed_set self query c = Ok seeds →
  seed_loop self c seeds [] = Ok recs →
  s ∈ seeds →
  (∀ rs, embeds_mf self !! s = Some rs →
         strictly_nearest rs (embeds_mf self) s) →
  s ∈ recs.
Proof.
  intros HK Hbuf _ Hloop Hs Hstrict.
  by eapply seed_loop_adds_seed.
Qed.
End contributions.

(** ** Title look-up *)

Lemma catalogue_filter (titles : list string) (k idx : nat) :
  filter (λ r : nat * list string, r.1 = idx)
         (imap (λ i title, ((k + i)%nat, [title])) titles)
  = match titles !! (idx - k)%nat with
    | Some title => if decide (k ≤ idx)%nat then [(idx, [title])] else []
    | None => []
    end.
Proof.
  revert k. induction titles as [|title titles IH]; intros k; [done|].
  rewrite imap_cons, filter_cons. cbn [fst].
  rewrite (imap_ext _ (λ i title, ((S k + i)%nat, [title])));
    [|intros; simpl; f_equal; lia].
  rewrite IH, Nat.add_0_r.
  destruct (decide (k = idx)) as [->|Hne].
  - rewrite Nat.sub_diag. cbn [lookup list_lookup].
    replace (idx - S idx)%nat with 0%nat by lia.
    rewrite (decide_True (P := (idx ≤ idx)%nat)) by lia.
    destruct (titles !! 0%nat); [|done].
    by rewrite (decide_False (P := (S idx ≤ idx)%nat)) by lia.
  - destruct (decide (k ≤ idx)%nat) as [Hle|Hgt].
    + replace (idx - k)%nat with (S (idx - S k)) by lia.
      cbn [lookup list_lookup].
      destruct (titles !! (idx - S k)%nat); [|done].
      by rewrite (decide_True (P := (S k ≤ idx)%nat)) by lia.
    + replace (idx - k)%nat with 0%nat by lia.
      replace (idx - S k)%nat with 0%nat by lia.
      cbn [lookup list_lookup].
      destruct (titles !! 0%nat); [|done].
      by rewrite (decide_False (P := (S k ≤ idx)%nat)) by lia.
Qed.

(** X20: for a catalogue whose lines carry the identifiers [0, 1, 2, ...] in
    file order, an identifier resolves to the title on the line of that
    number, whose semantic embedding [preprocess] stored in the row of that
    number; an identifier past the last line raises [KeyError]. *)
Theorem catalogue_aligned (model_use : string → vec) (titles : list string)
    (idx : nat) :
  match titles !! idx with
  | Some title =>
      loc_item (catalogue titles) idx = Ok title
      ∧ ∃ embeds_use, title_embeddings model_use titles = Ok embeds_use
                      ∧ embeds_use !! idx = Some (model_use title)
  | None => loc_item (catalogue titles) idx = Raise KeyError
  end.
Proof.
  unfold loc_item, catalogue.
  pose proof (catalogue_filter titles 0 idx) as Hf.
  cbn [Nat.add] in Hf. rewrite Hf, Nat.sub_0_r. clear Hf.
  destruct (titles !! idx) as [title|] eqn:Hidx; [|done].
  rewrite decide_True by lia. split; [done|].
  exists (model_use <$> titles). split.
  - apply title_embeddings_nonempty. by intros ->.
  - by rewrite list_lookup_fmap, Hidx.
Qed.

(** ** [Recommender.__init__] *)

Lemma Recommender_init_inv files self :
  Recommender_init files = Ok self →
  ∃ hub_encoder mf use lines df col,
    hub_load files = Ok hub_encoder
    ∧ embeds_mf_npy files = Ok mf
    ∧ embeds_use_npy files = Ok use
    ∧ items_csv files = Ok lines
    ∧ interactions_csv files = Ok df
    ∧ df !! "item"%string = Some col
    ∧ self = {| encoder := hub_encoder; embeds_mf := mf; embeds_use := use;
                items := lines; interacted_items := list_to_set col |}.
Proof.
  unfold Recommender_init.
  destruct (hub_load files) as [hub_encoder|]; [|done].
  destruct (embeds_mf_npy files) as [mf|]; [|done].
  destruct (embeds_use_npy files) as [use|]; [|done].
  destruct (items_csv files) as [lines|]; [|done].
  destruct (interactions_csv files) as [df|]; [|done]. cbn [bind].
  destruct (df !! "item"%string) as [col|] eqn:Hitem; [|done]. cbn [bind].
  intros [= <-]. by exists hub_encoder, mf, use, lines, df, col.
Qed.

Section constructed.
Context {sort : ArgSort} {kern : Kernels}.

(** X21: for a recommender the constructor returned, the interacted set is
    the set of values of the [item] column of the interactions table; so
    every seed of a query occurs in that column, and when the column is
    empty (a file with a header and no line) [recommend] returns the empty
    list for every query whose encoding is accepted against the semantic
    matrix. *)
Theorem constructed_seeds_have_interactions (files : saved)
    (self : Recommender) :
  Recommender_init files = Ok self →
  ∃ df col,
    interactions_csv files = Ok df
    ∧ df !! "item"%string = Some col
    ∧ (∀ i, i ∈ interacted_items self ↔ i ∈ col)
    ∧ (∀ query c seeds s,
         seed_set self query c = Ok seeds → s ∈ seeds → s ∈ col)
    ∧ (col = [] → ∀ query c,
         encodes self query = true → recommend self query c = Ok []).
Proof.
  intros (hub_encoder & mf & use & lines & df & col
          & _ & _ & _ & _ & Hdf & Hcol & ->)%Recommender_init_inv.
  exists df, col. split_and!; [done..| | |].
  - intros i. cbn [interacted_items]. apply elem_of_list_to_set.
  - intros query c seeds s Hseeds Hs.
    eapply seed_set_elem_of in Hs as [Hs _]; [|done].
    cbn [interacted_items] in Hs. by apply elem_of_list_to_set in Hs.
  - intros -> query c Hok.
    unfold recommend, recommend_ids. rewrite seed_set_run by done.
    unfold interaction_filter. cbn [interacted_items].
    rewrite filter_empty_set by done.
    rewrite slice_to_nil. cbn [bind seed_loop]. by rewrite slice_to_nil.
Qed.
End constructed.

(** ** The worked inputs, once more *)

Example demo_batches :
  batch ["a"; "b"; "c"; "d"; "e"]%string 2
  = Some [["a"; "b"]; ["c"; "d"]; ["e"]]%string.
Proof. reflexivity. Qed.

Example demo_constructor : Recommender_init demo_files = Ok demo_loaded.
Proof. reflexivity. Qed.

Lemma batch_concat_witness :
  ∃ bs, batch ["a"; "b"; "c"; "d"; "e"]%string 2 = Some bs
        ∧ concat bs = ["a"; "b"; "c"; "d"; "e"]%string.
Proof.
  apply (batch_concat ["a"; "b"; "c"; "d"; "e"]%string 2);
    [done|reflexivity|reflexivity].
Defined.

Lemma batch_sizes_witness :
  (0 < length ["c"; "d"]%string)%nat
  ∧ Z.of_nat (length ["c"; "d"]%string) ≤ 2
  ∧ ((2 < length [["a"; "b"]; ["c"; "d"]; ["e"]]%string)%nat
     → Z.of_nat (length ["c"; "d"]%string) = 2).
Proof.
  apply (batch_sizes ["a"; "b"; "c"; "d"; "e"]%string 2
           [["a"; "b"]; ["c"; "d"]; ["e"]]%string 1 ["c"; "d"]%string);
    [done|reflexivity|reflexivity].
Defined.

Lemma batch_count_witness :
  Z.of_nat (length [["a"; "b"]; ["c"; "d"]; ["e"]]%string)
  = (Z.of_nat (length ["a"; "b"; "c"; "d"; "e"]%string) + 2 - 1) / 2
  ∧ (["a"; "b"; "c"; "d"; "e"]%string = []
     → [["a"; "b"]; ["c"; "d"]; ["e"]]%string = []).
Proof.
  apply (batch_count ["a"; "b"; "c"; "d"; "e"]%string 2);
    [done|reflexivity|reflexivity|reflexivity].
Defined.

Lemma batch_degenerate_sizes_witness :
  batch ["a"; "b"; "c"]%string 0 = None
  ∧ batch ["a"; "b"; "c"]%string (-2) = Some [].
Proof.
  split.
  - apply (proj1 (batch_degenerate_sizes ["a"; "b"; "c"]%string 0)). done.
  - apply (proj2 (batch_degenerate_sizes ["a"; "b"; "c"]%string (-2))). done.
Defined.

Lemma batch_underflow_witness :
  batch ["a"]%string (2 ^ 1075) = Some []
  ∧ concat (@nil (list string)) ≠ ["a"]%string.
Proof.
  apply (batch_underflow ["a"]%string (2 ^ 1075)); [done|].
  apply Z.leb_le. vm_compute. reflexivity.
Defined.

Lemma title_embeddings_rows_witness :
  title_embeddings (encoder demo) [] = Raise ValueError
  ∧ title_embeddings (encoder demo) ["A"; "B"]%string
    = Ok (encoder demo <$> ["A"; "B"]%string).
Proof.
  split.
  - apply (proj1 (title_embeddings_rows (encoder demo) [])). done.
  - apply (proj2 (title_embeddings_rows (encoder demo) ["A"; "B"]%string)).
    done.
Defined.

Lemma preprocess_missing_column_key_error_witness :
  preprocess missing_user = Raise KeyError.
Proof.
  apply (preprocess_missing_column_key_error missing_user
           ["item"; "interaction"]%string ["title"]%string "user");
    [reflexivity|reflexivity|by left|reflexivity|reflexivity|..].
  - compute_done.
  - intros s Hs.
    apply elem_of_cons in Hs as [->|Hs]; [compute_done|].
    apply elem_of_cons in Hs as [->|Hs]; [compute_done|].
    by apply elem_of_nil in Hs.
  - compute_done.
  - compute_done.
Defined.

Lemma find_nearest_last_row_witness :
  @_find_nearest argsort_stable kernels_fold
    ([[3%float]] ++ [[0%float]]) [[1]; [3]; [0]]%float 2
  = @_find_nearest argsort_stable kernels_fold
      [[0%float]] [[1]; [3]; [0]]%float 2.
Proof.
  apply (proj1 (@find_nearest_last_row argsort_stable kernels_fold
                  [[3%float]] [0%float] [[1]; [3]; [0]]%float 2)).
  reflexivity.
Defined.

Lemma find_nearest_negative_K_witness :
  ∃ l full,
    @_find_nearest argsort_stable kernels_fold
      [[0%float]] [[1]; [3]; [0]]%float (-1) = Ok l
    ∧ @_find_nearest argsort_stable kernels_fold [[0%float]]
        [[1]; [3]; [0]]%float
        (Z.of_nat (length [[1]; [3]; [0]]%float)) = Ok full
    ∧ full ≡ₚ seq 0 (length [[1]; [3]; [0]]%float)
    ∧ l = take (length [[1]; [3]; [0]]%float - Z.to_nat (- -1)) full.
Proof.
  apply (@find_nearest_negative_K argsort_stable kernels_fold
           [0%float] [[1]; [3]; [0]]%float (-1)); [done|reflexivity].
Defined.

Lemma find_nearest_sort_independent_witness :
  @_find_nearest argsort_stable kernels_fold
    [[0%float]] [[1]; [3]; [0]]%float 2
  = @_find_nearest argsort_last_first kernels_fold
      [[0%float]] [[1]; [3]; [0]]%float 2.
Proof.
  apply (find_nearest_sort_independent argsort_stable argsort_last_first
           kernels_fold).
  intros i j Hi Hj [Hij Hji]. simpl in Hi, Hj.
  destruct i as [|[|[|i]]]; [| | |lia];
    (destruct j as [|[|[|j]]]; [| | |lia]);
    try reflexivity; vm_compute in Hij, Hji; discriminate.
Defined.

Lemma recommend_length_product_witness :
  Z.of_nat (length ["A"; "D"; "C"]%string)
  ≤ K_use demo_config * K_mf demo_config.
Proof.
  apply (@recommend_length_product argsort_stable kernels_fold demo "q"
           demo_config);
    [done|done|reflexivity].
Defined.

Lemma recommend_zero_counts_witness :
  @recommend argsort_stable kernels_fold demo "q"
    (with_use_buffer_multiplier 0 demo_config) = Ok [].
Proof.
  apply (proj1 (@recommend_zero_counts argsort_stable kernels_fold demo "q"
                  (with_use_buffer_multiplier 0 demo_config)));
    [by right|reflexivity].
Defined.

Lemma recommend_index_error_witness :
  @recommend argsort_stable kernels_fold demo_short "q" demo_config
  = Raise IndexError.
Proof.
  apply (proj1 (@recommend_index_error argsort_stable kernels_fold demo_short
                  "q" demo_config [0; 2]%nat 2%nat
                  eq_refl ltac:(compute_done) ltac:(simpl; lia))).
  reflexivity.
Defined.

Lemma recommend_ids_in_range_witness :
  ∃ ids, @recommend_ids argsort_stable kernels_fold demo "q" demo_config
         = Ok ids
         ∧ ∀ i, i ∈ ids → (i < length (embeds_mf demo))%nat.
Proof.
  apply (@recommend_ids_in_range argsort_stable kernels_fold demo "q"
           demo_config); [reflexivity|reflexivity|].
  intros i Hi. simpl in *. set_unfold. lia.
Defined.

Lemma accumulator_filled_witness :
  Z.of_nat (length [0; 3; 2; 5]%nat)
  = Z.of_nat (length [0; 2]%nat) * K_mf demo_config.
Proof.
  apply (@accumulator_filled argsort_stable kernels_fold demo "q"
           demo_config);
    [done|reflexivity|reflexivity|done|simpl; lia].
Defined.

Lemma seeds_are_recommended_witness : 2%nat ∈ [0; 3; 2; 5]%nat.
Proof.
  apply (@seeds_are_recommended argsort_stable kernels_fold demo "q"
           demo_config [0; 2]%nat [0; 3; 2; 5]%nat 2%nat);
    [done|done|reflexivity|reflexivity| |].
  - compute_done.
  - intros rs [= <-] j Hj Hlt Hnear.
    do 6 (destruct j as [|j]; [try done; vm_compute in Hnear; discriminate|]).
    simpl in Hlt. lia.
Defined.

Lemma constructed_seeds_have_interactions_witness :
  ∃ df col,
    interactions_csv demo_files = Ok df
    ∧ df !! "item"%string = Some col
    ∧ (∀ i, i ∈ interacted_items demo_loaded ↔ i ∈ col)
    ∧ (∀ query c seeds s,
         @seed_set argsort_stable kernels_fold demo_loaded query c
         = Ok seeds →
         s ∈ seeds → s ∈ col)
    ∧ (col = [] →
       ∀ query c,
         encodes demo_loaded query = true →
         @recommend argsort_stable kernels_fold demo_loaded query c = Ok []).
Proof.
  apply (@constructed_seeds_have_interactions argsort_stable kernels_fold
           demo_files demo_loaded).
  reflexivity.
Defined.
